(** * wau: the addon updater, its manifest and its update workers

    A shallow embedding of [wau.py]: the manifest store ([WAU_Manifest]),
    the release selector ([get_latest_file], [get_version]), the update
    worker ([process_addon]) and the top level of the script, followed by
    the properties the specification states about them. *)

From Stdlib Require Import ZArith NArith Ascii String Lia.
From stdpp Require Import base tactics option list gmap.

Local Open Scope N_scope.

(** ** Text

    A Python [str] is a sequence of Unicode code points.  The model keeps
    it as the list of its code points, so that [str.replace], [str.split]
    and [str.rstrip] see the characters Python sees. *)

Abbreviation char := N (only parsing).
Abbreviation str := (list N) (only parsing).

(** An ASCII literal of the source, as a [str]. *)
Definition lit (s : string) : str :=
  N_of_ascii <$> list_ascii_of_string s.

Definition LF : char := 10.
Definition CR : char := 13.
Definition SPACE : char := 32.
Definition UNDERSCORE : char := 95.

(** The characters [str.split()] and [str.rstrip()] treat as whitespace
    when called without an argument (CPython's [Py_UNICODE_ISSPACE]). *)
Definition is_space (c : char) : bool :=
  ((9 <=? c) && (c <=? 13)) || ((28 <=? c) && (c <=? 32))
  || (c =? 133) || (c =? 160) || (c =? 5760)
  || ((8192 <=? c) && (c <=? 8202))
  || (c =? 8232) || (c =? 8233) || (c =? 8239) || (c =? 8287)
  || (c =? 12288).

(** [s.replace(old, new)] for one-character [old] and [new]. *)
Definition replace_char (old new : char) (s : str) : str :=
  (fun c => if c =? old then new else c) <$> s.

(** [s.rstrip()]. *)
Fixpoint lstrip (s : str) : str :=
  match s with
  | [] => []
  | c :: r => if is_space c then lstrip r else s
  end.

Definition rstrip (s : str) : str := rev (lstrip (rev s)).

(** [s.split()]: the maximal runs of non-whitespace characters, in order.
    [tok] is the run being read. *)
Fixpoint split_from (tok : str) (s : str) : list str :=
  match s with
  | [] => match tok with [] => [] | _ => [tok] end
  | c :: r =>
      if is_space c
      then match tok with [] => split_from [] r | _ => tok :: split_from [] r end
      else split_from (tok ++ [c]) r
  end.

Definition split (s : str) : list str := split_from [] s.

(** Text files are opened in text mode with the default [newline=None]:
    on input, a carriage return, alone or followed by a line feed, is read
    as one line feed. *)
Fixpoint universal_newlines (s : str) : str :=
  match s with
  | [] => []
  | c :: r =>
      if c =? CR
      then match r with
           | c' :: r' => if c' =? LF then LF :: universal_newlines r'
                         else LF :: universal_newlines r
           | [] => [LF]
           end
      else c :: universal_newlines r
  end.

(** [f.readline()]: the text up to and including the first line feed, and
    what is left of the file after it. *)
Fixpoint readline (s : str) : str * str :=
  match s with
  | [] => ([], [])
  | c :: r =>
      if c =? LF then ([c], r)
      else let '(l, rest) := readline r in (c :: l, rest)
  end.

(** [for line in f]: the remaining lines, each with its line feed (the
    last one may lack it).  [cur] is the line being read. *)
Fixpoint lines_from (cur : str) (s : str) : list str :=
  match s with
  | [] => match cur with [] => [] | _ => [cur] end
  | c :: r =>
      if c =? LF then (cur ++ [c]) :: lines_from [] r
      else lines_from (cur ++ [c]) r
  end.

Definition file_lines (s : str) : list str := lines_from [] s.

(** ** Integers as text *)

Local Open Scope Z_scope.

Definition digit_value (c : char) : option Z :=
  if ((48 <=? c) && (c <=? 57))%N then Some (Z.of_N (c - 48)) else None.

(** The digits of [int(s)]: decimal digits, single underscores allowed
    between two of them.  [prev] tells whether the previous character was a
    digit.  (Python also takes the decimal digits of other scripts; the
    model reads ASCII digits only and reports [ValueError] on the others.
    CPython from 3.11 on refuses texts of more than 4300 digits; the model
    has no such bound.) *)
Fixpoint parse_digits (acc : Z) (prev : bool) (s : str) : option Z :=
  match s with
  | [] => if prev then Some acc else None
  | c :: r =>
      if (c =? UNDERSCORE)%N
      then (if prev then parse_digits acc false r else None)
      else match digit_value c with
           | Some d => parse_digits (10 * acc + d) true r
           | None => None
           end
  end.

(** [int(s)] on a token of [split] (which has no whitespace around it);
    [None] stands for [ValueError]. *)
Definition int_of_str (s : str) : option Z :=
  match s with
  | [] => None
  | c :: r =>
      if (c =? 45)%N then Z.opp <$> parse_digits 0 false r
      else if (c =? 43)%N then parse_digits 0 false r
      else parse_digits 0 false s
  end.

(** The decimal digits of [n], least significant first. *)
Fixpoint rdigits (fuel : nat) (n : N) : list N :=
  match fuel with
  | O => []
  | S f => (n mod 10)%N :: (if (n <? 10)%N then [] else rdigits f (n / 10)%N)
  end.

Definition str_of_N (n : N) : str :=
  (fun d => (48 + d)%N) <$> rev (rdigits (S (N.to_nat (N.log2 n))) n).

(** ["{}".format(k)] for an [int]. *)
Definition str_of_int (k : Z) : str :=
  if k <? 0 then 45%N :: str_of_N (Z.abs_N k) else str_of_N (Z.abs_N k).

(** ** Exceptions *)

Inductive exn : Type :=
  | OSError
  | KeyError
  | IndexError
  | ValueError
  | TypeError
  | AttributeError
  | ApiError (status_code : Z) (text : str)   (* [throw_api_error] *)
  | UnicodeEncodeError                        (* [f.write] of a text file *)
  | OtherError.                               (* raised by a collaborator *)

Inductive result (A : Type) : Type :=
  | Ok (a : A)
  | Raise (e : exn).
Arguments Ok {A} a.
Arguments Raise {A} e.

Global Instance result_ret : MRet result := fun A a => Ok a.
Global Instance result_bind : MBind result := fun A B k r =>
  match r with
  | Ok a => k a
  | Raise e => Raise e
  end.

(** [l[i]] on a list; out of range is [IndexError]. *)
Definition index {A} (l : list A) (i : nat) : result A :=
  match l !! i with
  | Some a => Ok a
  | None => Raise IndexError
  end.

(** [int(s)]. *)
Definition int (s : str) : result Z :=
  match int_of_str s with
  | Some z => Ok z
  | None => Raise ValueError
  end.

(** ** The manifest store: [WAU_Manifest] *)

(** The value [self.addons] holds for an addon. *)
Record entry : Type := Entry {
  install_alpha : bool;
  entry_version : str;          (* the key ['version'] *)
}.

(** [self.addons] is a [dict]: its keys are unique and it iterates in the
    order of first insertion, which is the order [commit] writes.  It is
    kept as the list of its items in that order. *)
Abbreviation dict := (list (Z * entry)) (only parsing).

(** The attribute [version] exists only once it has been assigned: [None]
    is an object without it. *)
Record WAU_Manifest : Type := Manifest {
  addons : dict;
  manifest_path : str;
  version : option str;
}.

(** [d[k]]. *)
Fixpoint dict_get (k : Z) (d : dict) : result entry :=
  match d with
  | [] => Raise KeyError
  | (k', e) :: r => if k =? k' then Ok e else dict_get k r
  end.

(** [d[k] = e]: replaces the value in place, or appends a new item. *)
Fixpoint dict_set (k : Z) (e : entry) (d : dict) : dict :=
  match d with
  | [] => [(k, e)]
  | (k', e') :: r => if k =? k' then (k, e) :: r else (k', e') :: dict_set k e r
  end.

Definition keys (d : dict) : list Z := fst <$> d.

(** The files of the machine, by path.  A path names one file: the model
    has no links and no second spelling of a path. *)
Abbreviation filesystem := (gmap (list N) (list N)) (only parsing).

(** One line of the manifest, lines 46 to 53. *)
Definition parse_line (line : str) : result (Z * entry) :=
  let cols := split line in
  c0 ← index cols 0;
  id ← int c0;
  c1 ← index cols 1;
  flag ← int c1;
  c2 ← index cols 2;
  Ok (id, {| install_alpha := negb (flag =? 0); entry_version := c2 |}).

Fixpoint load_lines (d : dict) (ls : list str) : result dict :=
  match ls with
  | [] => Ok d
  | line :: r =>
      '(id, e) ← parse_line line;
      load_lines (dict_set id e d) r
  end.

(** [WAU_Manifest.__init__].  [open] raises [OSError] when there is no
    file at the path; the handler leaves the object as it is then, with
    [addons] empty and [version] never assigned.  Any other exception
    leaves the constructor. *)
Definition WAU_Manifest_init (fs : filesystem) (base_path : str)
  : result WAU_Manifest :=
  let path := base_path ++ lit "/wau_manifest.txt" in
  match fs !! path with
  | None => Ok {| addons := []; manifest_path := path; version := None |}
  | Some raw =>
      let '(first, rest) := readline (universal_newlines raw) in
      let v := rstrip first in
      d ← load_lines [] (file_lines rest);
      Ok {| addons := d; manifest_path := path; version := Some v |}
  end.

Definition load_manifest (fs : filesystem) (base_path : str)
  : result WAU_Manifest :=
  WAU_Manifest_init fs base_path.

(** [update_version]: [self.addons[addon_id]] is looked up ([KeyError]
    when absent) and its ['version'] is assigned. *)
Definition update_version (m : WAU_Manifest) (addon_id : Z) (v : str)
  : result WAU_Manifest :=
  e ← dict_get addon_id (addons m);
  Ok {| addons := dict_set addon_id
                    {| install_alpha := install_alpha e; entry_version := v |}
                    (addons m);
        manifest_path := manifest_path m;
        version := version m |}.

(** What [commit] does to the file, one operation per statement: [open]
    in mode ["w"] creates the file or truncates it, each [f.write] appends
    to it.  (A line feed is written as the line ending of the platform,
    which reads back as a line feed; the file is kept as the text.) *)
Inductive fsop : Type :=
  | OpenW
  | FWrite (s : str).

(** The file is a text file in the encoding of the platform: [enc s]
    tells whether the encoding can hold the text [s].  [f.write(s)]
    raises [UnicodeEncodeError] when it cannot, and nothing of [s] reaches
    the file then. *)
Definition apply_op (enc : str -> bool) (path : str) (fs : filesystem)
    (op : fsop) : result filesystem :=
  match op with
  | OpenW => Ok (<[path := []]> fs)
  | FWrite s =>
      if enc s then Ok (<[path := default [] (fs !! path) ++ s]> fs)
      else Raise UnicodeEncodeError
  end.

(** The operations in order, up to the first that raises. *)
Fixpoint run_ops (enc : str -> bool) (path : str) (fs : filesystem)
    (ops : list fsop) : filesystem * result unit :=
  match ops with
  | [] => (fs, Ok tt)
  | op :: r =>
      match apply_op enc path fs op with
      | Ok fs' => run_ops enc path fs' r
      | Raise e => (fs, Raise e)
      end
  end.

(** ["{} {} {}\n".format(key, install_alpha, version)]. *)
Definition entry_line (item : Z * entry) : str :=
  str_of_int item.1 ++ [SPACE]
  ++ (if install_alpha item.2 then lit "1" else lit "0") ++ [SPACE]
  ++ entry_version item.2 ++ [LF].

(** The operations of [commit] in order, and how it ends when all of
    them go through: reading [self.version] raises [AttributeError] when
    it was never assigned, after the file was opened. *)
Definition commit_ops (m : WAU_Manifest) : list fsop * result unit :=
  match version m with
  | None => ([OpenW], Raise AttributeError)
  | Some v =>
      (OpenW :: FWrite (v ++ [LF]) :: (FWrite ∘ entry_line <$> addons m),
       Ok tt)
  end.

(** [commit]: the file as the operations leave it (the [with] block
    closes it also when a write raises), and the exception, if any. *)
Definition commit (enc : str -> bool) (m : WAU_Manifest) (fs : filesystem)
  : filesystem * result unit :=
  let '(ops, r) := commit_ops m in
  let '(fs', r') := run_ops enc (manifest_path m) fs ops in
  (fs', r' ≫= fun _ => r).

(** The contents of the manifest file a reader may see while [commit]
    runs: before it, and after each operation that goes through.  The file
    object buffers what is written, so a reader may miss some of the
    contents after a write; the truncation by [open] is not buffered. *)
Fixpoint states_from (enc : str -> bool) (path : str) (fs : filesystem)
    (ops : list fsop) : list (option str) :=
  fs !! path ::
  match ops with
  | [] => []
  | op :: r =>
      match apply_op enc path fs op with
      | Ok fs' => states_from enc path fs' r
      | Raise _ => []
      end
  end.

Definition visible_during_commit (enc : str -> bool) (m : WAU_Manifest)
    (fs : filesystem) : list (option str) :=
  states_from enc (manifest_path m) fs (commit_ops m).1.

(** The texts [commit] writes, one per [f.write]. *)
Definition commit_lines (v : str) (d : dict) : list str :=
  (v ++ [LF]) :: (entry_line <$> d).

(** The canonical serialization of section 6 of the specification. *)
Definition serialize (v : str) (d : dict) : str :=
  v ++ [LF] ++ concat (entry_line <$> d).

(** The encoding can hold every text [commit] writes for the stamp [v]
    and the items [d]. *)
Definition writable (enc : str -> bool) (v : str) (d : dict) : Prop :=
  Forall (fun l => enc l = true) (commit_lines v d).

(** The texts that go through when [ws] are written in order: those
    before the first one the encoding cannot hold. *)
Fixpoint written (enc : str -> bool) (ws : list str) : list str :=
  match ws with
  | [] => []
  | w :: r => if enc w then w :: written enc r else []
  end.

(** An encoding that takes a text character by character and holds the
    characters of ASCII, among them those [commit] itself brings in: the
    digits, the sign, the space and the line feed.  (UTF-8 and the 8-bit
    encodings of the locales are such.) *)
Definition charwise (enc : str -> bool) : Prop :=
  exists okc : char -> bool,
    (forall s, enc s = forallb okc s) /\ (forall c, (c < 128)%N -> okc c = true).

(** ** The catalog: [TwitchAppAPI] *)

(** An element of ['latestFiles'].  ['fileDate'] is an ISO-8601 text that
    [dateutil.parser.isoparse] turns into a point in time; the record
    holds that point, and [datetime] comparison is the order of [Z].
    ['releaseType'] is the JSON number [int] is applied to. *)
Record release : Type := Release {
  gameVersionFlavor : str;
  releaseType : Z;
  fileDate : Z;
  displayName : str;
  fileName : str;
  downloadUrl : str;
  modules : list str;           (* the ['foldername'] of each module *)
}.

(** The [dict] that [get_addon_info] returns. *)
Record addon_info : Type := AddonInfo {
  name : str;
  latestFiles : list release;
}.

Record response : Type := Response {
  status_code : Z;
  text : str;
}.

(** What lies outside the program: the network, the JSON decoder, the
    directory and archive functions of the library, the path arithmetic
    and the text encoding of the platform. *)
Record World : Type := {
  requests_get : str -> result response;
  json_loads_info : str -> result addon_info;
  json_loads_version : str -> result str;
  (** [requests.get(download_url, stream = True)], the opening of the
      target and the copy of the body: the request or the opening raises
      and nothing is written, or the copy writes some bytes and then ends
      or raises *)
  transfer : str -> result (str * result unit);
  (** [shutil.rmtree(path)]: the files as it leaves them, whether it
      raised or not *)
  rmtree : str -> filesystem -> filesystem;
  (** [zipfile.ZipFile(zip_path).extractall(addons_path)]: the files as
      it leaves them, and how it ends *)
  extractall : str -> str -> filesystem -> filesystem * result unit;
  os_path_join : str -> str -> str;
  (** whether the encoding of text files can hold a text *)
  encodes : str -> bool;
}.

Definition throw_api_error {A} (r : response) : result A :=
  Raise (ApiError (status_code r) (text r)).

Definition addon_url (base_url : str) (id : Z) : str :=
  base_url ++ lit "/addon/" ++ str_of_int id.

Definition timestamp_url (base_url : str) : str :=
  base_url ++ lit "/addon/timestamp".

Definition get_addon_info (w : World) (base_url : str) (id : Z)
  : result addon_info :=
  r ← requests_get w (addon_url base_url id);
  if negb (status_code r =? 200) then throw_api_error r
  else json_loads_info w (text r).

Definition get_addon_database_version (w : World) (base_url : str)
  : result str :=
  r ← requests_get w (timestamp_url base_url);
  if negb (status_code r =? 200) then throw_api_error r
  else json_loads_version w (text r).

(** ** The release selector *)

(** One turn of the loop of [get_latest_file], on the pair
    [(latest_date, latest_file)]. *)
Definition latest_step (install_alpha : bool) (game_version_flavor : str)
    (acc : option Z * option release) (file : release)
  : option Z * option release :=
  if negb (bool_decide (gameVersionFlavor file = game_version_flavor)) then acc
  else
    let release_type := releaseType file in
    if negb install_alpha && negb (release_type =? 1) then acc
    else
      let file_date := fileDate file in
      match acc.1 with
      | None => (Some file_date, Some file)
      | Some latest_date =>
          if file_date >? latest_date then (Some file_date, Some file)
          else acc
      end.

Definition get_latest_file (info : addon_info) (install_alpha : bool)
    (game_version_flavor : str) : option release :=
  (foldl (latest_step install_alpha game_version_flavor)
         (None, None) (latestFiles info)).2.

(** [release['displayName'].replace(' ', '_')]; subscripting [None] raises
    [TypeError]. *)
Definition get_version (r : option release) : result str :=
  match r with
  | None => Raise TypeError
  | Some f => Ok (replace_char SPACE UNDERSCORE (displayName f))
  end.

(** ** Fetch and install

    These functions work on the AddOns directory, which also holds the
    manifest file. *)

(** [download_release]: [open(target_path, "wb")] empties or creates the
    target file and the copy fills it; any exception of the body is caught
    and turned into [None], the target file staying as the copy left it.
    The target is the file named like the release in the AddOns
    directory, whatever is there already. *)
Definition download_release (w : World) (addons_path : str)
    (r : option release) (fs : filesystem) : filesystem * option str :=
  match r with
  | None => (fs, None)
  | Some f =>
      let target_path := os_path_join w addons_path (fileName f) in
      match transfer w (downloadUrl f) with
      | Raise _ => (fs, None)
      | Ok (body, Ok _) => (<[target_path := body]> fs, Some target_path)
      | Ok (body, Raise _) => (<[target_path := body]> fs, None)
      end
  end.

(** [erase_local]: the directory of each module is removed; each removal
    is wrapped in a bare [except], only the subscript of the release is
    not. *)
Definition erase_local (w : World) (addons_path : str) (r : option release)
    (fs : filesystem) : filesystem * result unit :=
  match r with
  | None => (fs, Raise TypeError)
  | Some f =>
      (foldl (fun fs' dir_name => rmtree w (os_path_join w addons_path dir_name) fs')
             fs (modules f),
       Ok tt)
  end.

Definition extract_release (w : World) (addons_path zip_path : str)
    (fs : filesystem) : filesystem * result unit :=
  extractall w zip_path addons_path fs.

(** [delete_release_cache]: [os.remove]; its exception (the file is not
    there) is caught. *)
Definition delete_release_cache (zip_path : str) (fs : filesystem)
  : filesystem :=
  delete zip_path fs.

(** ** The update worker: [process_addon]

    The worker is cut into one step per statement of [process_addon];
    the block under [manifest_lock] is one step.  Between two steps of a
    worker the others may run. *)

Inductive pc : Type :=
  | Start                                             (* line 182 *)
  | Selecting (installed_version : str) (install_alpha : bool)  (* line 185 *)
  | Fetching (name : str) (latest_file : option release)
             (latest_version : str)                   (* line 191 *)
  | Installing (name : str) (latest_file : option release)
               (latest_version : str) (zip_path : str) (* line 193 *)
  | Extracting (latest_version : str) (zip_path : str) (* line 194 *)
  | Cleaning (latest_version : str) (zip_path : str)   (* line 195 *)
  | Recording (latest_version : str)                  (* line 197 *)
  | UpToDate                                          (* line 201, returned *)
  | Done                                              (* line 199, returned *)
  | Failed                                            (* line 192, returned *)
  | Crashed (e : exn)              (* uncaught exception, lines 183 to 195 *)
  | CrashedRecording (e : exn).    (* uncaught exception, lines 198 to 199 *)

Definition terminal (p : pc) : bool :=
  match p with
  | UpToDate | Done | Failed | Crashed _ | CrashedRecording _ => true
  | _ => false
  end.

(** What the threads share: the manifest object, the files, and the URLs
    requested so far (oldest first). *)
Record shared : Type := Shared {
  manifest : WAU_Manifest;
  files : filesystem;
  requested : list str;
}.

Record Args : Type := {
  api_url : str;
  forced_update : bool;
  game_flavor : str;
  pause_after_finish : bool;
  addons_path : str;
}.

Definition with_request (sh : shared) (url : str) : shared :=
  {| manifest := manifest sh; files := files sh;
     requested := requested sh ++ [url] |}.

Definition with_files (sh : shared) (fs : filesystem) : shared :=
  {| manifest := manifest sh; files := fs; requested := requested sh |}.

Definition process_addon_step (w : World) (a : Args) (addon_id : Z)
    (sh : shared) (p : pc) : shared * pc :=
  match p with
  | Start =>
      match dict_get addon_id (addons (manifest sh)) with
      | Ok e => (sh, Selecting (entry_version e) (install_alpha e))
      | Raise x => (sh, Crashed x)
      end
  | Selecting installed_version install_alpha =>
      let sh' := with_request sh (addon_url (api_url a) addon_id) in
      match get_addon_info w (api_url a) addon_id with
      | Raise x => (sh', Crashed x)
      | Ok info =>
          let latest_file := get_latest_file info install_alpha (game_flavor a) in
          match get_version latest_file with
          | Raise x => (sh', Crashed x)
          | Ok latest_version =>
              if negb (bool_decide (latest_version = installed_version))
              then (sh', Fetching (name info) latest_file latest_version)
              else (sh', UpToDate)
          end
      end
  | Fetching name latest_file latest_version =>
      let sh' := match latest_file with
                 | Some f => with_request sh (downloadUrl f)
                 | None => sh
                 end in
      match download_release w (addons_path a) latest_file (files sh) with
      | (fs', Some zip_path) =>
          (with_files sh' fs',
           Installing name latest_file latest_version zip_path)
      | (fs', None) => (with_files sh' fs', Failed)
      end
  | Installing name latest_file latest_version zip_path =>
      match erase_local w (addons_path a) latest_file (files sh) with
      | (fs', Raise x) => (with_files sh fs', Crashed x)
      | (fs', Ok _) => (with_files sh fs', Extracting latest_version zip_path)
      end
  | Extracting latest_version zip_path =>
      match extract_release w (addons_path a) zip_path (files sh) with
      | (fs', Raise x) => (with_files sh fs', Crashed x)
      | (fs', Ok _) => (with_files sh fs', Cleaning latest_version zip_path)
      end
  | Cleaning latest_version zip_path =>
      (with_files sh (delete_release_cache zip_path (files sh)),
       Recording latest_version)
  | Recording latest_version =>
      match update_version (manifest sh) addon_id latest_version with
      | Raise x => (sh, CrashedRecording x)
      | Ok m' =>
          let '(fs', r) := commit (encodes w) m' (files sh) in
          let sh' := {| manifest := m'; files := fs';
                        requested := requested sh |} in
          match r with
          | Ok _ => (sh', Done)
          | Raise x => (sh', CrashedRecording x)
          end
      end
  | UpToDate | Done | Failed | Crashed _ | CrashedRecording _ => (sh, p)
  end.

(** ** The orchestrator: the top level of the script *)

Record run_state : Type := RunState {
  mem : shared;
  threads : list (Z * pc);      (* one thread per key of [manifest.addons] *)
}.

(** Any thread that has not returned may run next.  (The source starts
    the threads one by one while the first ones already run; a thread not
    yet started is a thread at [Start] that has not run yet.) *)
Inductive step (w : World) (a : Args) : run_state -> run_state -> Prop :=
  | step_thread s i id p sh' p' :
      threads s !! i = Some (id, p) ->
      terminal p = false ->
      process_addon_step w a id (mem s) p = (sh', p') ->
      step w a s {| mem := sh'; threads := <[i := (id, p')]> (threads s) |}.

Inductive steps (w : World) (a : Args) : run_state -> run_state -> Prop :=
  | steps_refl s : steps w a s s
  | steps_step s1 s2 s3 : steps w a s1 s2 -> step w a s2 s3 -> steps w a s1 s3.

(** [thread.join()] on every thread returns once all have returned. *)
Definition joined (s : run_state) : bool :=
  forallb (fun t => terminal t.2) (threads s).

(** How the script leaves its top level: by [exit(code)], by an uncaught
    exception, or into the threads it started. *)
Inductive main_result : Type :=
  | Exited (code : Z) (requested : list str)
  | Raised (e : exn)
  | Spawned (s : run_state).

Definition main (w : World) (a : Args) (fs : filesystem) : main_result :=
  match load_manifest fs (addons_path a) with
  | Raise x => Raised x
  | Ok manifest =>
      let requested := [timestamp_url (api_url a)] in
      match get_addon_database_version w (api_url a) with
      | Raise x => Raised x
      | Ok api_db_version =>
          match version manifest with
          | None => Raised AttributeError
          | Some v =>
              if bool_decide (api_db_version = v) && negb (forced_update a)
              then Exited 0 requested
              else
                let manifest' :=
                  {| addons := addons manifest;
                     manifest_path := manifest_path manifest;
                     version := Some api_db_version |} in
                Spawned
                  {| mem := {| manifest := manifest'; files := fs;
                               requested := requested |};
                     threads := (fun id => (id, Start)) <$> keys (addons manifest) |}
          end
      end
  end.

(** The exit status after the joins: the outcomes of the threads are not
    looked at. *)
Definition exit_status (s : run_state) : option Z :=
  if joined s then Some 0 else None.

(** A schedule that runs the threads one after the other, each to its
    end; seven steps take a thread from [Start] to its return. *)
Fixpoint run_thread (w : World) (a : Args) (n : nat) (id : Z)
    (sh : shared) (p : pc) : shared * pc :=
  match n with
  | O => (sh, p)
  | S n' =>
      let '(sh', p') := process_addon_step w a id sh p in
      run_thread w a n' id sh' p'
  end.

Fixpoint run_all (w : World) (a : Args) (sh : shared) (ts : list (Z * pc))
  : shared * list (Z * pc) :=
  match ts with
  | [] => (sh, [])
  | (id, p) :: r =>
      let '(sh', p') := run_thread w a 7 id sh p in
      let '(sh'', r') := run_all w a sh' r in
      (sh'', (id, p') :: r')
  end.

Definition schedule (w : World) (a : Args) (s : run_state) : run_state :=
  let '(sh, ts) := run_all w a (mem s) (threads s) in
  {| mem := sh; threads := ts |}.

(** How many steps a worker is from its return, at most. *)
Definition remaining (p : pc) : nat :=
  match p with
  | Start => 7
  | Selecting _ _ => 6
  | Fetching _ _ _ => 5
  | Installing _ _ _ _ => 4
  | Extracting _ _ => 3
  | Cleaning _ _ => 2
  | Recording _ => 1
  | UpToDate | Done | Failed | Crashed _ | CrashedRecording _ => 0
  end.

(** ** What the specification says of the selector, in its words *)

(** A release survives the filter: its platform variant is the one asked
    for and, unless alpha releases are allowed, its release type is 1. *)
Definition applicable (install_alpha : bool) (game_version_flavor : str)
    (f : release) : bool :=
  bool_decide (gameVersionFlavor f = game_version_flavor)
  && (install_alpha || (releaseType f =? 1)).

(** Every whitespace character replaced by the separator. *)
Definition normalize_whitespace (s : str) : str :=
  (fun c => if is_space c then UNDERSCORE else c) <$> s.

(** What the loop of [get_latest_file] has found after the files [l]:
    nothing if none of them survives, else the first of the survivors
    with the greatest date. *)
Definition found (install_alpha : bool) (game_version_flavor : str)
    (l : list release) (acc : option Z * option release) : Prop :=
  match acc.2 with
  | None =>
      acc.1 = None /\
      Forall (fun f => applicable install_alpha game_version_flavor f = false) l
  | Some r =>
      acc.1 = Some (fileDate r) /\
      exists l1 l2, l = l1 ++ r :: l2 /\
        applicable install_alpha game_version_flavor r = true /\
        Forall (fun f => applicable install_alpha game_version_flavor f = true ->
                         fileDate f < fileDate r) l1 /\
        Forall (fun f => applicable install_alpha game_version_flavor f = true ->
                         fileDate f <= fileDate r) l2
  end.

(** What section 4.1 of the specification asks of [commit]: a reader of
    the manifest file sees the contents from before the commit or the new
    serialization, nothing in between. *)
Definition atomic_replace (old : option str) (new : str)
    (seen : list (option str)) : Prop :=
  Forall (fun c => c = old \/ c = Some new) seen.

(** The items of the manifest without their versions: the keys in order,
    each with its [install_alpha]. *)
Definition flags (d : dict) : list (Z * bool) :=
  (fun item => (item.1, install_alpha item.2)) <$> d.

(** A worker that has gone through its recording, to the end or not. *)
Definition recorded (p : pc) : bool :=
  match p with
  | Done | CrashedRecording _ => true
  | _ => false
  end.

(** What holds of a run that started from the manifest [m0]: the stamp
    is assigned, the items are those of [m0] with their flags, there is
    one thread per item, and an item whose thread has not gone through its
    recording is as in [m0]. *)
Record run_inv (m0 : WAU_Manifest) (s : run_state) : Prop := {
  inv_version : is_Some (version (manifest (mem s)));
  inv_path : manifest_path (manifest (mem s)) = manifest_path m0;
  inv_flags : flags (addons (manifest (mem s))) = flags (addons m0);
  inv_threads : (fst <$> threads s) = keys (addons m0);
  inv_nodup : NoDup (keys (addons m0));
  inv_entry : forall i id p,
    threads s !! i = Some (id, p) -> recorded p = false ->
    dict_get id (addons (manifest (mem s))) = dict_get id (addons m0);
}.

(** A text without whitespace. *)
Definition no_space (s : str) : Prop := Forall (fun c => is_space c = false) s.

(** The number a list of decimal digits denotes, least significant digit
    first. *)
Fixpoint value (ds : list N) : Z :=
  match ds with
  | [] => 0
  | d :: r => Z.of_N d + 10 * value r
  end.

(** A character that is no line break. *)
Definition inline (c : char) : Prop := c <> LF /\ c <> CR.

(** An item [commit] writes as a line that [load_manifest] reads back: its
    version is a token, not empty and without whitespace. *)
Definition token_entry (item : Z * entry) : Prop :=
  entry_version item.2 <> [] /\ no_space (entry_version item.2).

(** ** A small installation, for the examples *)

Module Sample.
Definition root : str := lit "/wow".
Definition path : str := lit "/wow/wau_manifest.txt".

(** UTF-8 holds every code point but the surrogates. *)
Definition utf8 (s : str) : bool :=
  forallb (fun c => (c <? 55296)%N || ((57343 <? c)%N && (c <? 1114112)%N)) s.

  (** A catalog that answers every query with status 200, offers
      [releases] for every addon and [db_version] as its stamp; the
      archive of a release holds the one file [A/A.toc]. *)
Definition world (releases : list release) (db_version : str)
      (fetch_ok extract_ok : bool) : World :=
    {| requests_get := fun url => Ok {| status_code := 200; text := url |};
       json_loads_info := fun _ =>
         Ok {| name := lit "Addon"; latestFiles := releases |};
       json_loads_version := fun _ => Ok db_version;
       transfer := fun _ =>
         if fetch_ok then Ok (lit "PK", Ok tt) else Raise OtherError;
       rmtree := fun dir fs => delete (dir ++ lit "/A.toc") fs;
       extractall := fun _ dir fs =>
         if extract_ok then (<[dir ++ lit "/A/A.toc" := lit "toc"]> fs, Ok tt)
         else (fs, Raise OtherError);
       os_path_join := fun a b => a ++ lit "/" ++ b;
       encodes := utf8 |}.

Definition args (forced : bool) : Args :=
    {| api_url := lit "http://api"; forced_update := forced;
       game_flavor := lit "wow_retail"; pause_after_finish := false;
       addons_path := root |}.

Definition stable (display : str) (date : Z) : release :=
    {| gameVersionFlavor := lit "wow_retail"; releaseType := 1;
       fileDate := date; displayName := display;
       fileName := lit "a.zip"; downloadUrl := lit "http://cdn/a.zip";
       modules := [lit "A"] |}.

  (** The manifest of the end-to-end scenario: item 42 at ["1_0"]. *)
Definition ledger : WAU_Manifest :=
    {| addons := [(42, {| install_alpha := false; entry_version := lit "1_0" |})];
       manifest_path := path;
       version := Some (lit "v1") |}.

Definition disk : filesystem := {[ path := lit "v1" ++ [LF] ++ lit "42 0 1_0" ++ [LF] ]}.

Definition tabbed : release := stable [49; 9; 49]%N 5.
Definition newer : release := stable (lit "1 1") 7.

(** A catalog with a newer release of item 42 that cannot be fetched. *)
Definition unreachable : World := world [newer] (lit "v2") false true.

(** The run of the script on [disk], as the threads start ... *)
Definition started : run_state :=
  {| mem := {| manifest := {| addons := addons ledger; manifest_path := path;
                              version := Some (lit "v2") |};
               files := disk;
               requested := [lit "http://api/addon/timestamp"] |};
     threads := [(42, Start)] |}.

(** ... and as the worker of item 42 is about to fetch. *)
Definition fetching : run_state :=
  {| mem := {| manifest := {| addons := addons ledger; manifest_path := path;
                              version := Some (lit "v2") |};
               files := disk;
               requested := [lit "http://api/addon/timestamp";
                             lit "http://api/addon/42"] |};
     threads := [(42, Fetching (lit "Addon") (Some newer) (lit "1_1"))] |}.
(** A catalog with a newer release of item 42 that installs. *)
Definition reachable : World := world [newer] (lit "v2") true true.

(** Item 42 recorded with an empty version. *)
Definition blank : WAU_Manifest :=
  {| addons := [(42, {| install_alpha := false; entry_version := [] |})];
     manifest_path := path;
     version := Some (lit "v1") |}.
End Sample.

(** ** Notions for the further properties of the store and of runs *)

(** A text that does not end in whitespace: [rstrip] keeps it. *)
Definition no_trailing_space (s : str) : Prop :=
  forall c, last s = Some c -> is_space c = false.

(** A text the first line of the manifest file gives back as it is: no
    line break in it, no whitespace at its end. *)
Definition stamp (v : str) : Prop := Forall inline v /\ no_trailing_space v.

(** A line of whitespace only. *)
Definition blank (line : str) : Prop := Forall (fun c => is_space c = true) line.







(** The steps all workers together are from their returns, at most. *)
Definition work (s : run_state) : nat :=
  sum_list_with (fun t => remaining t.2) (threads s).

(** The state a thread [i] of item [id] leaves behind when it runs next. *)
Definition after_step (w : World) (a : Args) (s : run_state) (i : nat)
    (id : Z) (p : pc) : run_state :=
  {| mem := (process_addon_step w a id (mem s) p).1;
     threads := <[i := (id, (process_addon_step w a id (mem s) p).2)]> (threads s) |}.

(** The display name of a release gives a version the manifest file can
    hold: it is not empty and its only whitespace is the space character. *)
Definition plain_name (s : str) : Prop :=
  s <> [] /\ Forall (fun c => is_space c = true -> c = SPACE) s.




(** The state after thread [i], of item [id] and at [p], has run [n]
    steps. *)
Definition run_one (w : World) (a : Args) (n : nat) (s : run_state)
    (i : nat) (id : Z) (p : pc) : run_state :=
  {| mem := (run_thread w a n id (mem s) p).1;
     threads := <[i := (id, (run_thread w a n id (mem s) p).2)]> (threads s) |}.

(** ** More installations, for the examples *)

Module Cases.
(** A manifest file as an editor may leave it: blanks at the end of the
    stamp, a carriage return before the line feed, runs of blanks, a
    fourth column, and item 42 on two lines. *)
Definition untidy_text : str :=
  lit "v1 " ++ [CR; LF] ++ lit "42  1 1_0 x" ++ [LF]
  ++ lit "7 0 a" ++ [LF] ++ lit "42 0 2_0" ++ [LF].

Definition untidy_disk : filesystem := {[ Sample.path := untidy_text ]}.

Definition untidy : WAU_Manifest :=
  {| addons := [(42, {| install_alpha := false; entry_version := lit "2_0" |});
                (7, {| install_alpha := false; entry_version := lit "a" |})];
     manifest_path := Sample.path;
     version := Some (lit "v1") |}.

(** Item 42 with an alpha release later than its stable ones. *)
Definition alpha : release :=
  {| gameVersionFlavor := lit "wow_retail"; releaseType := 3;
     fileDate := 9; displayName := lit "2 0 alpha";
     fileName := lit "b.zip"; downloadUrl := lit "http://cdn/b.zip";
     modules := [lit "A"] |}.

Definition classic : release :=
  {| gameVersionFlavor := lit "wow_classic"; releaseType := 1;
     fileDate := 11; displayName := lit "1 13";
     fileName := lit "c.zip"; downloadUrl := lit "http://cdn/c.zip";
     modules := [lit "A"] |}.

Definition offers : addon_info :=
  {| name := lit "Addon";
     latestFiles := [Sample.stable (lit "1 0") 3; classic; alpha; Sample.newer] |}.

(** Two items, 42 behind the catalog and 7 level with it. *)
Definition pair_disk : filesystem :=
  {[ Sample.path := lit "v1" ++ [LF] ++ lit "42 0 1_0" ++ [LF]
                    ++ lit "7 1 1_1" ++ [LF] ]}.

Definition pair_started : run_state :=
  {| mem := {| manifest :=
                 {| addons := [(42, {| install_alpha := false;
                                       entry_version := lit "1_0" |});
                               (7, {| install_alpha := true;
                                      entry_version := lit "1_1" |})];
                    manifest_path := Sample.path;
                    version := Some (lit "v2") |};
               files := pair_disk;
               requested := [lit "http://api/addon/timestamp"] |};
     threads := [(42, Start); (7, Start)] |}.

(** The run of [Sample.started] as the worker of item 42 is about to
    record: the release is installed and its archive removed. *)
Definition recording : run_state :=
  {| mem := {| manifest := {| addons := addons Sample.ledger;
                              manifest_path := Sample.path;
                              version := Some (lit "v2") |};
               files := <[lit "/wow/A/A.toc" := lit "toc"]> Sample.disk;
               requested := [lit "http://api/addon/timestamp";
                             lit "http://api/addon/42";
                             lit "http://cdn/a.zip"] |};
     threads := [(42, Recording (lit "1_1"))] |}.

(** A catalog that answers every query with status 503. *)
Definition down : World :=
  {| requests_get := fun url => Ok {| status_code := 503; text := lit "busy" |};
     json_loads_info := fun _ => Raise ValueError;
     json_loads_version := fun _ => Raise ValueError;
     transfer := fun _ => Raise OtherError;
     rmtree := fun _ fs => fs;
     extractall := fun _ _ fs => (fs, Raise OtherError);
     os_path_join := fun a b => a ++ lit "/" ++ b;
     encodes := Sample.utf8 |}.



(** Two items whose releases have archives of the same name; the
    transfer of the first breaks off, the second arrives, and an archive
    extracts when it is there and not empty. *)
Definition first : release :=
  {| gameVersionFlavor := lit "wow_retail"; releaseType := 1;
     fileDate := 7; displayName := lit "1 1";
     fileName := lit "a.zip"; downloadUrl := lit "http://cdn/1.zip";
     modules := [lit "A"] |}.

Definition second : release :=
  {| gameVersionFlavor := lit "wow_retail"; releaseType := 1;
     fileDate := 7; displayName := lit "1 2";
     fileName := lit "a.zip"; downloadUrl := lit "http://cdn/2.zip";
     modules := [lit "B"] |}.

Definition colliding : World :=
  {| requests_get := fun url => Ok {| status_code := 200; text := url |};
     json_loads_info := fun text =>
       if bool_decide (text = lit "http://api/addon/42")
       then Ok {| name := lit "One"; latestFiles := [first] |}
       else Ok {| name := lit "Two"; latestFiles := [second] |};
     json_loads_version := fun _ => Ok (lit "v2");
     transfer := fun url =>
       if bool_decide (url = lit "http://cdn/1.zip")
       then Ok ([], Raise OtherError) else Ok (lit "PK", Ok tt);
     rmtree := fun _ fs => fs;
     extractall := fun zip dir fs =>
       match fs !! zip with
       | Some (_ :: _) => (<[dir ++ lit "/B/B.toc" := lit "toc"]> fs, Ok tt)
       | _ => (fs, Raise OtherError)
       end;
     os_path_join := fun a b => a ++ lit "/" ++ b;
     encodes := Sample.utf8 |}.

(** The run on [pair_disk] against [colliding]: the worker of item 7 has
    its archive and is about to extract it, the worker of item 42 is about
    to fetch. *)
Definition collision : run_state :=
  {| mem := {| manifest := manifest (mem pair_started);
               files := <[lit "/wow/a.zip" := lit "PK"]> pair_disk;
               requested := [lit "http://api/addon/timestamp";
                             lit "http://api/addon/7";
                             lit "http://cdn/2.zip";
                             lit "http://api/addon/42"] |};
     threads := [(42, Fetching (lit "One") (Some first) (lit "1_1"));
                 (7, Extracting (lit "1_2") (lit "/wow/a.zip"))] |}.

(** A version with a lone surrogate in it, which UTF-8 cannot hold. *)
Definition unencodable : WAU_Manifest :=
  {| addons := [(42, {| install_alpha := false;
                        entry_version := lit "1_" ++ [55357%N] |})];
     manifest_path := Sample.path;
     version := Some (lit "v1") |}.
End Cases.

(** * Properties *)

(** ** The release selector *)

Section Selector.
Variables (install_alpha : bool) (game_version_flavor : str).

Local Abbreviation keep := (applicable install_alpha game_version_flavor).
Local Abbreviation turn := (latest_step install_alpha game_version_flavor).

Lemma latest_step_skip acc f : keep f = false -> turn acc f = acc.
  Proof.
    unfold applicable, latest_step.
    destruct (bool_decide _); simpl; [|done].
    destruct install_alpha; simpl; [done|].
    by destruct (releaseType f =? 1).
  Qed.

Lemma latest_step_keep acc f :
    keep f = true ->
    turn acc f =
      match acc.1 with
      | None => (Some (fileDate f), Some f)
      | Some latest_date =>
          if fileDate f >? latest_date then (Some (fileDate f), Some f) else acc
      end.
  Proof.
    unfold applicable, latest_step.
    destruct (bool_decide _); simpl; [|done].
    destruct install_alpha; simpl; [done|].
    by destruct (releaseType f =? 1).
  Qed.

Lemma found_snoc l acc f :
  found install_alpha game_version_flavor l acc ->
  found install_alpha game_version_flavor (l ++ [f]) (turn acc f).
  Proof.
    intros Hf. destruct (keep f) eqn:Hk.
    - rewrite latest_step_keep by done. unfold found in *.
      destruct acc as [d [r|]]; simpl in *.
      + destruct Hf as (-> & l1 & l2 & -> & Hr & H1 & H2).
        destruct (Z.gtb_spec (fileDate f) (fileDate r)) as [Hgt|Hle]; simpl.
        * split; [done|]. exists (l1 ++ r :: l2), []. split; [done|].
          split; [done|]. split; [|constructor].
          apply Forall_app. split.
          -- eapply Forall_impl; [exact H1|]. simpl. intros x Hx Hkx.
             specialize (Hx Hkx). lia.
          -- constructor; [lia|].
             eapply Forall_impl; [exact H2|]. simpl. intros x Hx Hkx.
             specialize (Hx Hkx). lia.
        * split; [done|]. exists l1, (l2 ++ [f]).
          rewrite <- app_assoc. split; [done|]. split; [done|].
          split; [done|]. apply Forall_app. split; [done|].
          constructor; [lia|constructor].
      + destruct Hf as [-> Hall]. simpl. split; [done|].
        exists l, []. split; [done|]. split; [done|]. split; [|constructor].
        eapply Forall_impl; [exact Hall|]. simpl. congruence.
    - rewrite latest_step_skip by done. unfold found in *.
      destruct acc as [d [r|]]; simpl in *.
      + destruct Hf as (-> & l1 & l2 & -> & Hr & H1 & H2). split; [done|].
        exists l1, (l2 ++ [f]). rewrite <- app_assoc.
        split; [done|]. split; [done|]. split; [done|].
        apply Forall_app. split; [done|]. constructor; [congruence|constructor].
      + destruct Hf as [-> Hall]. split; [done|].
        apply Forall_app. split; [done|]. by constructor.
  Qed.

Lemma found_foldl l :
  found install_alpha game_version_flavor l (foldl turn (None, None) l).
  Proof.
    induction l as [|f l IH] using rev_ind.
    - unfold found. simpl. split; [done|constructor].
    - rewrite foldl_app. simpl. by apply found_snoc.
  Qed.
End Selector.

(** C4.  [get_latest_file] returns [None] exactly when no release has the
    platform variant asked for and (unless alpha releases are allowed)
    release type 1; otherwise it returns such a release, later than every
    surviving release before it in the list and at least as late as every
    surviving release after it: the latest one, the first seen among
    equals.  The result depends on the list and the two policy values
    only. *)
Theorem get_latest_file_selects (info : addon_info) (install_alpha : bool)
    (game_version_flavor : str) :
  let keep := applicable install_alpha game_version_flavor in
  match get_latest_file info install_alpha game_version_flavor with
  | None => Forall (fun f => keep f = false) (latestFiles info)
  | Some r =>
      exists l1 l2, latestFiles info = l1 ++ r :: l2 /\
        gameVersionFlavor r = game_version_flavor /\
        (install_alpha = false -> releaseType r = 1) /\
        Forall (fun f => keep f = true -> fileDate f < fileDate r) l1 /\
        Forall (fun f => keep f = true -> fileDate f <= fileDate r) l2
  end /\
  (forall info', latestFiles info' = latestFiles info ->
     get_latest_file info' install_alpha game_version_flavor
     = get_latest_file info install_alpha game_version_flavor).
Proof.
  intros keep. split.
  - unfold get_latest_file.
    pose proof (found_foldl install_alpha game_version_flavor (latestFiles info)) as H.
    unfold found in H.
    destruct (foldl _ _ _).2 as [r|].
    + destruct H as (_ & l1 & l2 & Heq & Hk & H1 & H2).
      exists l1, l2. split; [done|].
      unfold applicable in Hk. apply andb_true_iff in Hk as [Hf Ha].
      apply bool_decide_eq_true in Hf. split; [done|]. split; [|done].
      intros ->. simpl in Ha. lia.
    + by destruct H.
  - intros info' Heq. unfold get_latest_file. by rewrite Heq.
Qed.

(** ** Integers as text *)

Definition is_int_char (c : char) : Prop := c = 45%N \/ (48 <= c <= 57)%N.

Lemma rdigits_lt fuel n : Forall (fun d => (d < 10)%N) (rdigits fuel n).
Proof.
  revert n. induction fuel as [|fuel IH]; intros n; simpl; [constructor|].
  constructor.
  - apply N.mod_lt. lia.
  - destruct (n <? 10)%N; [constructor|apply IH].
Qed.

Lemma str_of_N_chars n : Forall (fun c => (48 <= c <= 57)%N) (str_of_N n).
Proof.
  unfold str_of_N. apply Forall_fmap, Forall_rev.
  eapply Forall_impl; [apply rdigits_lt|]. simpl. lia.
Qed.

Lemma str_of_int_chars k : Forall is_int_char (str_of_int k).
Proof.
  unfold str_of_int.
  assert (Forall is_int_char (str_of_N (Z.abs_N k))) as H.
  { eapply Forall_impl; [apply str_of_N_chars|]. intros c Hc. by right. }
  destruct (k <? 0); [constructor; [by left|done]|done].
Qed.

Lemma addon_url_not_timestamp base id : addon_url base id <> timestamp_url base.
Proof.
  unfold addon_url, timestamp_url. intros Heq.
  apply app_inv_head in Heq.
  assert (lit "/addon/timestamp" = lit "/addon/" ++ lit "timestamp") as E by done.
  rewrite E in Heq. apply app_inv_head in Heq.
  pose proof (str_of_int_chars id) as H. rewrite Heq in H.
  apply Forall_cons in H as [Hc _]. unfold is_int_char in Hc.
  simpl in Hc. destruct Hc as [Hc|Hc]; [done|lia].
Qed.

(** ** The version token *)

Lemma replace_char_lookup old new (s : str) i c :
  s !! i = Some c ->
  replace_char old new s !! i = Some (if (c =? old)%N then new else c).
Proof. intros H. unfold replace_char. by rewrite list_lookup_fmap, H. Qed.

Lemma replace_char_gone old new (s : str) :
  new <> old -> old ∉ replace_char old new s.
Proof.
  intros Hne Hin. unfold replace_char in Hin.
  apply list_elem_of_fmap in Hin as (c & Hc & _).
  destruct (N.eqb_spec c old); congruence.
Qed.

(** C5, as the specification words it, fails: only the space character is
    replaced, so a tab of the display name stays in the token. *)
Lemma get_version_keeps_tab :
  get_version (Some Sample.tabbed) = Ok [49; 9; 49]%N /\
  is_space 9 = true /\
  get_version (Some Sample.tabbed)
    <> Ok (normalize_whitespace (displayName Sample.tabbed)).
Proof. split; [reflexivity|]. split; [reflexivity|]. discriminate. Qed.

(** C5, amended.  The version token of a release is its display name with
    every space character (U+0020) replaced by an underscore and every
    other character kept, so it has the length of the name and no space
    in it; two releases with the same display name get the same token, and
    the display name ["1 1"] gives ["1_1"]. *)
Theorem get_version_replaces_spaces :
  (forall f : release, exists v,
     get_version (Some f) = Ok v /\
     length v = length (displayName f) /\
     (forall i c, displayName f !! i = Some c ->
        v !! i = Some (if (c =? SPACE)%N then UNDERSCORE else c)) /\
     (SPACE ∉ v) /\
     (forall g, displayName g = displayName f -> get_version (Some g) = Ok v)) /\
  get_version (Some (Sample.stable (lit "1 1") 7)) = Ok (lit "1_1").
Proof.
  split; [|reflexivity].
  intros f. exists (replace_char SPACE UNDERSCORE (displayName f)).
  split; [done|]. split; [apply length_fmap|].
  split; [intros i c; apply replace_char_lookup|].
  split; [by apply replace_char_gone|].
  intros g Hg. simpl. by rewrite Hg.
Qed.

(** ** No applicable release *)

Lemma selecting_none_crashes w a id sh installed_version install_alpha info :
  get_addon_info w (api_url a) id = Ok info ->
  get_latest_file info install_alpha (game_flavor a) = None ->
  process_addon_step w a id sh (Selecting installed_version install_alpha)
  = (with_request sh (addon_url (api_url a) id), Crashed TypeError).
Proof. intros Hi Hl. simpl. by rewrite Hi, Hl. Qed.

(** C1, at a catalog that offers no release for item 42: the selector
    returns [None], [get_version] subscripts it, and the worker ends with
    an uncaught [TypeError] instead of returning as up to date.  The
    manifest and its file are as before. *)
Theorem process_addon_no_candidate :
  let w := Sample.world [] (lit "v2") true true in
  let sh := {| manifest := Sample.ledger; files := Sample.disk; requested := [] |} in
  get_addon_info w (lit "http://api") 42
    = Ok {| name := lit "Addon"; latestFiles := [] |} /\
  get_latest_file {| name := lit "Addon"; latestFiles := [] |} false
    (lit "wow_retail") = None /\
  run_thread w (Sample.args true) 5 42 sh Start
    = (with_request sh (lit "http://api/addon/42"), Crashed TypeError).
Proof. repeat split; reflexivity. Qed.

(** ** First run *)

Lemma load_manifest_absent fs base_path :
  fs !! (base_path ++ lit "/wau_manifest.txt") = None ->
  load_manifest fs base_path
  = Ok {| addons := []; manifest_path := base_path ++ lit "/wau_manifest.txt";
          version := None |}.
Proof. intros H. unfold load_manifest, WAU_Manifest_init. by rewrite H. Qed.

Lemma main_absent_raises w a fs v :
  fs !! (addons_path a ++ lit "/wau_manifest.txt") = None ->
  get_addon_database_version w (api_url a) = Ok v ->
  main w a fs = Raised AttributeError.
Proof.
  intros Hfs Hv. unfold main. by rewrite (load_manifest_absent _ _ Hfs), Hv.
Qed.

(** C3, with no manifest file: [load_manifest] returns an object with an
    empty [addons] and no [version] attribute at all, and the comparison
    of line 275 reads that attribute: the script ends there with an
    uncaught [AttributeError], forced or not, before any thread exists. *)
Theorem main_first_run :
  let w := Sample.world [] (lit "v2") true true in
  load_manifest ∅ Sample.root
    = Ok {| addons := []; manifest_path := Sample.path; version := None |} /\
  main w (Sample.args false) ∅ = Raised AttributeError /\
  main w (Sample.args true) ∅ = Raised AttributeError.
Proof. repeat split; reflexivity. Qed.

(** ** The fast path *)

(** C9.  When the manifest loads with the stamp the catalog reports and
    the force flag is not set, the script leaves by [exit(0)] before the
    thread loop: no worker exists, and the only request made is the one
    for the catalog version, which is no item query. *)
Theorem main_fast_path w a fs m v :
  load_manifest fs (addons_path a) = Ok m ->
  version m = Some v ->
  get_addon_database_version w (api_url a) = Ok v ->
  forced_update a = false ->
  main w a fs = Exited 0 [timestamp_url (api_url a)] /\
  forall id, addon_url (api_url a) id ∉ [timestamp_url (api_url a)].
Proof.
  intros Hm Hv Hdb Hf. split.
  - unfold main. rewrite Hm, Hdb, Hv, Hf.
    by rewrite bool_decide_eq_true_2.
  - intros id Hin. apply list_elem_of_singleton in Hin.
    by apply addon_url_not_timestamp in Hin.
Qed.

Lemma main_fast_path_witness :
  main (Sample.world [] (lit "v1") true true) (Sample.args false) Sample.disk
  = Exited 0 [lit "http://api/addon/timestamp"].
Proof.
  apply (main_fast_path (Sample.world [] (lit "v1") true true)
           (Sample.args false) Sample.disk Sample.ledger (lit "v1"));
    reflexivity.
Defined.

(** ** Commit *)

Lemma apply_op_other enc path fs op fs' (p : str) :
  apply_op enc path fs op = Ok fs' -> p <> path -> fs' !! p = fs !! p.
Proof.
  intros H Hne. destruct op; simpl in H.
  - injection H as <-. by rewrite lookup_insert_ne.
  - destruct (enc s); [|done]. injection H as <-. by rewrite lookup_insert_ne.
Qed.

Lemma run_ops_other enc path ops fs (p : str) :
  p <> path -> (run_ops enc path fs ops).1 !! p = fs !! p.
Proof.
  intros Hne. revert fs. induction ops as [|op ops IH]; intros fs; simpl; [done|].
  destruct (apply_op enc path fs op) as [fs'|e] eqn:Hop; [|done].
  rewrite IH. by eapply apply_op_other.
Qed.

Lemma concat_prefix (l1 l2 : list str) :
  l1 `prefix_of` l2 -> concat l1 `prefix_of` concat l2.
Proof. intros [k ->]. rewrite concat_app. by apply prefix_app_r. Qed.

Lemma written_prefix enc ws : written enc ws `prefix_of` ws.
Proof.
  induction ws as [|w ws IH]; [done|]. simpl.
  destruct (enc w); [by apply prefix_cons|apply prefix_nil].
Qed.

Lemma written_all enc ws :
  Forall (fun l => enc l = true) ws -> written enc ws = ws.
Proof. induction 1 as [|w ws Hw _ IH]; [done|]. simpl. by rewrite Hw, IH. Qed.

(** The writes go through up to the first text the encoding refuses. *)
Lemma run_writes enc path ws fs (c : str) :
  fs !! path = Some c ->
  (run_ops enc path fs (FWrite <$> ws)).1
  = <[path := c ++ concat (written enc ws)]> fs /\
  (((run_ops enc path fs (FWrite <$> ws)).2 = Ok tt /\
    Forall (fun l => enc l = true) ws) \/
   ((run_ops enc path fs (FWrite <$> ws)).2 = Raise UnicodeEncodeError /\
    ~ Forall (fun l => enc l = true) ws)).
Proof.
  revert fs c. induction ws as [|w ws IH]; intros fs c Hc.
  - simpl. rewrite app_nil_r. split; [by rewrite insert_id|]. by left.
  - cbn [fmap list_fmap run_ops apply_op written]. destruct (enc w) eqn:Hw.
    + rewrite Hc. simpl default.
      destruct (IH (<[path := c ++ w]> fs) (c ++ w)) as (Hf & Hr);
        [apply lookup_insert_eq|].
      split; [rewrite Hf, insert_insert_eq; simpl; by rewrite <- app_assoc|].
      destruct Hr as [(Hr & Hall)|[Hr Hn]]; [left|right].
      * split; [done|]. by constructor.
      * split; [done|]. intros Hall. apply Hn.
        by apply Forall_cons in Hall as [_ ?].
    + simpl. rewrite app_nil_r.
      split; [by rewrite insert_id|]. right. split; [done|].
      intros Hall. apply Forall_cons in Hall as [Hall _]. congruence.
Qed.

Lemma writes_states enc path ws fs (c : str) :
  fs !! path = Some c ->
  Forall (fun st => exists t, st = Some t /\ t `prefix_of` c ++ concat ws)
         (states_from enc path fs (FWrite <$> ws)).
Proof.
  revert fs c. induction ws as [|w ws IH]; intros fs c Hc.
  - simpl. constructor; [|constructor]. exists c. split; [done|].
    by rewrite app_nil_r.
  - cbn [fmap list_fmap states_from apply_op]. constructor.
    + exists c. split; [done|]. by apply prefix_app_r.
    + destruct (enc w); [|constructor]. rewrite Hc. simpl default.
      simpl concat. rewrite app_assoc. apply IH. apply lookup_insert_eq.
Qed.

Lemma states_from_last enc path ops fs :
  last (states_from enc path fs ops)
  = Some ((run_ops enc path fs ops).1 !! path).
Proof.
  revert fs. induction ops as [|op ops IH]; intros fs; [done|].
  cbn [states_from run_ops].
  destruct (apply_op enc path fs op) as [fs'|e]; [|done].
  rewrite <- IH. by destruct ops; simpl; [|destruct (apply_op _ _ _ _)].
Qed.

Lemma states_from_open enc path fs ws :
  states_from enc path fs (OpenW :: (FWrite <$> ws))
  = fs !! path :: states_from enc path (<[path := []]> fs) (FWrite <$> ws).
Proof. done. Qed.

Lemma states_from_writes_head enc path fs ws (c : str) :
  fs !! path = Some c ->
  states_from enc path fs (FWrite <$> ws)
  = Some c :: tail (states_from enc path fs (FWrite <$> ws)).
Proof. intros H. destruct ws; simpl; by rewrite H. Qed.

Lemma commit_ops_set m v :
  version m = Some v ->
  commit_ops m = (OpenW :: (FWrite <$> commit_lines v (addons m)), Ok tt).
Proof.
  intros Hv. unfold commit_ops, commit_lines. rewrite Hv.
  by rewrite (list_fmap_compose entry_line FWrite).
Qed.

Lemma serialize_concat v d :
  serialize v d = [] ++ concat (commit_lines v d).
Proof. unfold serialize, commit_lines. simpl. by rewrite <- app_assoc. Qed.

(** What [commit] leaves in the manifest file once the stamp is
    assigned: the texts that went through. *)
Lemma commit_written enc m fs v :
  version m = Some v ->
  (commit enc m fs).1
  = <[manifest_path m := concat (written enc (commit_lines v (addons m)))]> fs /\
  (((commit enc m fs).2 = Ok tt /\ writable enc v (addons m)) \/
   ((commit enc m fs).2 = Raise UnicodeEncodeError /\
    ~ writable enc v (addons m))).
Proof.
  intros Hv. unfold commit. rewrite (commit_ops_set _ _ Hv).
  cbn [run_ops apply_op].
  destruct (run_writes enc (manifest_path m) (commit_lines v (addons m))
              (<[manifest_path m := []]> fs) [] (lookup_insert_eq _ _ _))
    as (Hf & Hr).
  destruct (run_ops enc (manifest_path m) _ _) as [fs' r]. cbn [fst snd] in *.
  split; [by rewrite Hf, insert_insert_eq|].
  destruct Hr as [(-> & Hall)|[-> Hn]]; [by left|by right].
Qed.

(** How [commit] ends once the stamp is assigned: the manifest file
    holds the texts written, a prefix of the serialization and all of it
    when [commit] returns; it raises when the encoding refuses a text. *)
Lemma commit_cases enc m fs v :
  version m = Some v ->
  exists t, t `prefix_of` serialize v (addons m) /\
    (commit enc m fs).1 = <[manifest_path m := t]> fs /\
    (((commit enc m fs).2 = Ok tt /\ t = serialize v (addons m) /\
      writable enc v (addons m)) \/
     ((commit enc m fs).2 = Raise UnicodeEncodeError /\
      ~ writable enc v (addons m))).
Proof.
  intros Hv. destruct (commit_written enc m fs v Hv) as (Hf & Hr).
  exists (concat (written enc (commit_lines v (addons m)))). split.
  - rewrite serialize_concat. change ([] ++ ?x) with x.
    apply concat_prefix, written_prefix.
  - split; [done|]. destruct Hr as [(Hr & Hall)|Hr]; [left|by right].
    split; [done|]. split; [|done].
    by rewrite serialize_concat, (written_all _ _ Hall).
Qed.

Lemma commit_set enc m fs v :
  version m = Some v -> writable enc v (addons m) ->
  commit enc m fs
  = (<[manifest_path m := serialize v (addons m)]> fs, Ok tt).
Proof.
  intros Hv Hw. destruct (commit_cases enc m fs v Hv) as (t & _ & Hf & Hr).
  destruct Hr as [(Hr & -> & _)|[_ Hn]]; [|done].
  destruct (commit enc m fs) as [fs' r]. simpl in *. by subst.
Qed.

Lemma commit_unset enc m fs :
  version m = None ->
  commit enc m fs = (<[manifest_path m := []]> fs, Raise AttributeError).
Proof. intros Hv. unfold commit, commit_ops. by rewrite Hv. Qed.

(** C2, as the specification words it, fails: [commit] opens the manifest
    file itself for writing, which empties it, and a reader can see it
    empty, neither as it was nor as it will be. *)
Lemma commit_shows_truncated_file :
  let m := Sample.ledger in
  let old := Sample.disk !! manifest_path m in
  old = Some (serialize (lit "v1") (addons m)) /\
  visible_during_commit Sample.utf8 m Sample.disk !! 1%nat = Some (Some []) /\
  ~ atomic_replace old (serialize (lit "v1") (addons m))
      (visible_during_commit Sample.utf8 m Sample.disk).
Proof.
  split; [reflexivity|]. split; [reflexivity|].
  intros H. unfold atomic_replace in H.
  apply (proj1 (Forall_lookup _ _)) with (i := 1%nat) (x := Some []) in H;
    [|reflexivity].
  destruct H as [H|H]; discriminate H.
Qed.

(** C2, amended.  [commit] overwrites the manifest file in place: it
    opens the file at the manifest path for writing, which empties it, and
    appends the catalog-version line and one line per item.  Every other
    file is as before; a reader sees the old contents, then the empty
    file, then growing prefixes of the serialization.  When [commit]
    returns, the file holds the canonical serialization.  It returns when
    the encoding of the file can hold every line; it raises
    [UnicodeEncodeError] otherwise, leaving the lines written before. *)
Theorem commit_overwrites_in_place enc m fs v :
  version m = Some v ->
  let new := serialize v (addons m) in
  (forall p : str, p <> manifest_path m -> (commit enc m fs).1 !! p = fs !! p) /\
  (exists later,
     visible_during_commit enc m fs = fs !! manifest_path m :: Some [] :: later /\
     Forall (fun st => exists t, st = Some t /\ t `prefix_of` new) later) /\
  ((commit enc m fs).2 = Ok tt ->
   (commit enc m fs).1 !! manifest_path m = Some new /\
   last (visible_during_commit enc m fs) = Some (Some new)) /\
  (writable enc v (addons m) -> (commit enc m fs).2 = Ok tt) /\
  ((commit enc m fs).2 = Ok tt \/
   (commit enc m fs).2 = Raise UnicodeEncodeError /\
   exists t, t `prefix_of` new /\ (commit enc m fs).1 !! manifest_path m = Some t).
Proof.
  intros Hv new.
  destruct (commit_cases enc m fs v Hv) as (t & Hpre & Hf & Hr). fold new in Hpre, Hr.
  set (path := manifest_path m) in *.
  set (ws := commit_lines v (addons m)).
  assert (last (visible_during_commit enc m fs) = Some (Some t)) as Hlast.
  { unfold visible_during_commit. rewrite states_from_last.
    pose proof Hf as Hf'. unfold commit in Hf'.
    destruct (commit_ops m) as [ops r]. cbn [fst].
    destruct (run_ops enc (manifest_path m) fs ops) as [fs' r']. cbn [fst] in *.
    fold path. rewrite Hf'. by rewrite lookup_insert_eq. }
  split; [|split; [|split; [|split]]].
  - intros p Hp. by rewrite Hf, lookup_insert_ne.
  - unfold visible_during_commit. rewrite (commit_ops_set _ _ Hv). cbn [fst].
    fold path ws.
    assert ((<[path := []]> fs : gmap (list N) (list N)) !! path = Some [])
      as Hempty by apply lookup_insert_eq.
    exists (tail (states_from enc path (<[path := []]> fs) (FWrite <$> ws))).
    split.
    + rewrite states_from_open. f_equal. by apply states_from_writes_head.
    + pose proof (writes_states enc path ws _ _ Hempty) as H.
      unfold ws in H at 1. rewrite <- serialize_concat in H. fold new in H.
      destruct (states_from _ _ _ _); [constructor|].
      by apply Forall_cons in H as [_ H].
  - intros Hok. destruct Hr as [(_ & -> & _)|[Hr _]]; [|congruence].
    split; [by rewrite Hf, lookup_insert_eq|done].
  - intros Hw. by rewrite (commit_set enc m fs v Hv Hw).
  - destruct Hr as [(Hr & _)|[Hr _]]; [by left|right]. split; [done|].
    exists t. split; [done|]. by rewrite Hf, lookup_insert_eq.
Qed.

Lemma commit_overwrites_in_place_witness :
  (commit Sample.utf8 Sample.ledger ∅).1 !! Sample.path
  = Some (lit "v1" ++ [LF] ++ lit "42 0 1_0" ++ [LF]).
Proof.
  destruct (commit_overwrites_in_place Sample.utf8 Sample.ledger ∅ (lit "v1")
              eq_refl) as (_ & _ & H & _).
  apply H. reflexivity.
Defined.
(** ** The dictionary of the manifest *)

Lemma dict_get_set_eq k e d : dict_get k (dict_set k e d) = Ok e.
Proof.
  induction d as [|[k' e'] d IH]; simpl.
  - by rewrite Z.eqb_refl.
  - destruct (Z.eqb_spec k k') as [-> | Hne]; simpl.
    + by rewrite Z.eqb_refl.
    + by destruct (Z.eqb_spec k k').
Qed.

Lemma dict_get_set_ne k k' e d :
  k <> k' -> dict_get k (dict_set k' e d) = dict_get k d.
Proof.
  intros Hne. induction d as [|[k'' e''] d IH]; simpl.
  - by destruct (Z.eqb_spec k k').
  - destruct (Z.eqb_spec k' k'') as [->|Hne']; simpl.
    + by destruct (Z.eqb_spec k k'').
    + by destruct (Z.eqb_spec k k'').
Qed.

Lemma flags_dict_set k e v d :
  dict_get k d = Ok e ->
  flags (dict_set k {| install_alpha := install_alpha e; entry_version := v |} d)
  = flags d.
Proof.
  induction d as [|[k' e'] d IH]; simpl; [done|].
  destruct (Z.eqb_spec k k') as [-> | Hne]; intros H.
  - by injection H as ->.
  - change (flags ((k', e') :: ?l)) with ((k', install_alpha e') :: flags l).
    by rewrite IH.
Qed.

Lemma dict_get_absent k d : k ∉ keys d -> dict_get k d = Raise KeyError.
Proof.
  unfold keys. induction d as [|[k' e'] d IH]; [done|].
  rewrite fmap_cons, not_elem_of_cons. cbn [fst dict_get]. intros [Hne Hin].
  destruct (Z.eqb_spec k k'); [done|]. by apply IH.
Qed.

Lemma keys_dict_set k e d :
  keys (dict_set k e d) = if decide (k ∈ keys d) then keys d else keys d ++ [k].
Proof.
  unfold keys. induction d as [|[k' e'] d IH]; [done|].
  cbn [dict_set]. destruct (Z.eqb_spec k k') as [-> | Hne]; rewrite !fmap_cons.
  - rewrite decide_True; [done|]. by left.
  - rewrite IH. cbn [fst]. destruct (decide (k ∈ fst <$> d)) as [Hin|Hin].
    + rewrite decide_True; [done|]. by right.
    + rewrite decide_False; [done|].
      intros H. apply elem_of_cons in H as [H|H]; done.
Qed.

Lemma dict_set_nodup k e d : NoDup (keys d) -> NoDup (keys (dict_set k e d)).
Proof.
  intros Hd. rewrite keys_dict_set. destruct (decide _) as [Hin|Hin]; [done|].
  apply NoDup_app. split; [done|]. split; [|apply NoDup_singleton].
  intros x Hx Hx'. apply list_elem_of_singleton in Hx'. by subst.
Qed.

Lemma load_lines_nodup ls d d' :
  load_lines d ls = Ok d' -> NoDup (keys d) -> NoDup (keys d').
Proof.
  revert d. induction ls as [|line ls IH]; intros d; simpl.
  - by intros [= ->].
  - destruct (parse_line line) as [[id e]|x]; simpl; [|done].
    intros H Hd. eapply IH; [exact H|]. by apply dict_set_nodup.
Qed.

Lemma load_manifest_nodup fs base_path m :
  load_manifest fs base_path = Ok m -> NoDup (keys (addons m)).
Proof.
  unfold load_manifest, WAU_Manifest_init.
  destruct (fs !! _) as [raw|].
  - destruct (readline _) as [first rest].
    destruct (load_lines [] _) as [d|x] eqn:Hd; simpl; [|done].
    intros [= <-]. simpl. eapply load_lines_nodup; [exact Hd|]. constructor.
  - intros [= <-]. constructor.
Qed.

Lemma update_version_ok m id v m' :
  update_version m id v = Ok m' ->
  exists e, dict_get id (addons m) = Ok e /\
    m' = {| addons := dict_set id {| install_alpha := install_alpha e;
                                     entry_version := v |} (addons m);
            manifest_path := manifest_path m;
            version := version m |}.
Proof.
  unfold update_version. destruct (dict_get id (addons m)) as [e|x]; simpl; [|done].
  intros [= <-]. by exists e.
Qed.

Lemma get_latest_file_some info ia fl r :
  get_latest_file info ia fl = Some r ->
  r ∈ latestFiles info /\ applicable ia fl r = true /\
  forall f, f ∈ latestFiles info -> applicable ia fl f = true ->
            fileDate f <= fileDate r.
Proof.
  unfold get_latest_file. intros Hr.
  pose proof (found_foldl ia fl (latestFiles info)) as H. unfold found in H.
  rewrite Hr in H. destruct H as (_ & l1 & l2 & Heq & Hk & H1 & H2).
  rewrite Heq. split; [apply elem_of_app; right; by left|]. split; [done|].
  rewrite Forall_forall in H1, H2.
  intros f Hf Hkf. apply elem_of_app in Hf as [Hf|Hf].
  - specialize (H1 _ Hf Hkf). lia.
  - apply elem_of_cons in Hf as [->|Hf]; [lia|]. by apply H2.
Qed.

Lemma get_latest_file_none info ia fl f :
  get_latest_file info ia fl = None ->
  f ∈ latestFiles info -> applicable ia fl f = false.
Proof.
  unfold get_latest_file. intros Hr.
  pose proof (found_foldl ia fl (latestFiles info)) as H. unfold found in H.
  rewrite Hr in H. destruct H as [_ H]. rewrite Forall_forall in H. apply H.
Qed.
(** ** One step of a worker *)

(** A step either leaves the manifest in memory alone and does not end in
    [Done], or it is the step of [Recording] after [update_version]
    returned: the manifest file then holds what [commit] wrote, all of the
    serialization when [commit] returned and a prefix of it when the
    encoding refused a line. *)
Lemma process_addon_step_cases w a id sh p sh' p' :
  is_Some (version (manifest sh)) ->
  process_addon_step w a id sh p = (sh', p') ->
  (manifest sh' = manifest sh /\ (p' = Done -> p = Done) /\
   (forall lv, p = Recording lv -> sh' = sh)) \/
  (exists lv m' v t,
     p = Recording lv /\
     update_version (manifest sh) id lv = Ok m' /\
     version m' = Some v /\
     manifest sh' = m' /\
     files sh' = <[manifest_path m' := t]> (files sh) /\
     requested sh' = requested sh /\
     ((p' = Done /\ t = serialize v (addons m') /\
       writable (encodes w) v (addons m')) \/
      (p' = CrashedRecording UnicodeEncodeError /\
       t `prefix_of` serialize v (addons m') /\
       ~ writable (encodes w) v (addons m')))).
Proof.
  intros [v Hv] Hstep. destruct p; cbn [process_addon_step] in Hstep.
  - left. destruct (dict_get _ _); by simplify_eq.
  - left. destruct (get_addon_info _ _ _); [|by simplify_eq].
    destruct (get_version _); [|by simplify_eq].
    destruct (negb _); by simplify_eq.
  - left. destruct (download_release _ _ _ _) as [fs' [zip|]];
      destruct latest_file; by simplify_eq.
  - left. destruct (erase_local _ _ _ _) as [fs' [[]|x]]; by simplify_eq.
  - left. destruct (extract_release _ _ _ _) as [fs' [[]|x]]; by simplify_eq.
  - left. by simplify_eq.
  - destruct (update_version _ _ _) as [m'|x] eqn:Hu; [|left; by simplify_eq].
    right. destruct (update_version_ok _ _ _ _ Hu) as (e & _ & Hm').
    assert (version m' = Some v) as Hv' by (by subst m').
    destruct (commit_cases (encodes w) m' (files sh) v Hv')
      as (t & Hpre & Hf & Hr).
    destruct (commit (encodes w) m' (files sh)) as [fs' r]. cbn [fst snd] in *.
    exists latest_version, m', v, t.
    destruct Hr as [(-> & -> & Hall)|[-> Hn]]; injection Hstep as <- <-; cbn.
    + repeat (split; [done|]). by left.
    + repeat (split; [done|]). by right.
  - left. by simplify_eq.
  - left. by simplify_eq.
  - left. by simplify_eq.
  - left. by simplify_eq.
  - left. by simplify_eq.
Qed.

Lemma terminal_not_done p : terminal p = false -> p <> Done.
Proof. by intros H ->. Qed.

Lemma terminal_not_recorded p : terminal p = false -> recorded p = false.
Proof. by destruct p. Qed.

Lemma recorded_terminal p : recorded p = true -> terminal p = true.
Proof. by destruct p. Qed.

Lemma threads_distinct (ts : list (Z * pc)) i j id p p' :
  NoDup (fst <$> ts) ->
  ts !! i = Some (id, p) -> ts !! j = Some (id, p') -> i = j.
Proof.
  intros Hnd Hi Hj. eapply NoDup_lookup; [exact Hnd| |].
  - by rewrite list_lookup_fmap, Hi.
  - by rewrite list_lookup_fmap, Hj.
Qed.





(** ** The invariant of a run *)

Lemma step_run_inv w a m0 s s' :
  run_inv m0 s -> step w a s s' -> run_inv m0 s'.
Proof.
  intros [Hver Hpath Hflags Hthr Hnd Hent] Hstep.
  destruct Hstep as [s i id p sh' p' Hi Hrun Hstep].
  assert (i < length (threads s))%nat as Hlen by (by eapply lookup_lt_Some).
  assert (fst <$> <[i := (id, p')]> (threads s) = keys (addons m0)) as Hthr'.
  { rewrite list_fmap_insert. simpl. rewrite list_insert_id; [done|].
    by rewrite list_lookup_fmap, Hi. }
  destruct (process_addon_step_cases _ _ _ _ _ _ _ Hver Hstep)
    as [(Hm & Hd & _)|(lv & m' & v & t & -> & Hu & Hv' & Hm & Hf & _ & Hp')].
  - split; cbn [mem threads]; rewrite ?Hm.
    + done.
    + done.
    + done.
    + done.
    + done.
    + intros j idj pj Hj Hnot. destruct (decide (j = i)) as [-> | Hne].
      * rewrite list_lookup_insert_eq in Hj by done. simplify_eq.
        eapply Hent; [exact Hi|]. by apply terminal_not_recorded.
      * rewrite list_lookup_insert_ne in Hj by done. by eapply Hent.
  - destruct (update_version_ok _ _ _ _ Hu) as (e & He & Hm').
    split; cbn [mem threads]; rewrite ?Hm.
    + by rewrite Hv'.
    + by rewrite Hm'.
    + rewrite Hm'. cbn [addons]. by rewrite (flags_dict_set _ _ _ _ He).
    + done.
    + done.
    + intros j idj pj Hj Hnot. destruct (decide (j = i)) as [-> | Hne].
      * rewrite list_lookup_insert_eq in Hj by done. simplify_eq.
        by destruct Hp' as [(-> & _)|(-> & _)].
      * rewrite list_lookup_insert_ne in Hj by done.
        rewrite Hm'. cbn [addons]. rewrite dict_get_set_ne; [by eapply Hent|].
        intros ->. apply Hne. symmetry.
        eapply threads_distinct; [|exact Hi|exact Hj]. by rewrite Hthr.
Qed.

Lemma steps_run_inv w a m0 s s' :
  run_inv m0 s -> steps w a s s' -> run_inv m0 s'.
Proof.
  intros Hinv Hsteps. induction Hsteps as [|s1 s2 s3 _ IH Hstep]; [done|].
  eapply step_run_inv; [|exact Hstep]. by apply IH.
Qed.

Lemma main_spawned w a fs s0 :
  main w a fs = Spawned s0 ->
  exists m v,
    load_manifest fs (addons_path a) = Ok m /\
    get_addon_database_version w (api_url a) = Ok v /\
    s0 = {| mem := {| manifest := {| addons := addons m;
                                     manifest_path := manifest_path m;
                                     version := Some v |};
                      files := fs;
                      requested := [timestamp_url (api_url a)] |};
            threads := (fun id => (id, Start)) <$> keys (addons m) |}.
Proof.
  unfold main. destruct (load_manifest _ _) as [m|x]; [|done].
  destruct (get_addon_database_version _ _) as [v|x]; [|done].
  destruct (version m) as [v0|]; [|done].
  destruct (_ && _); [done|]. intros [= <-]. by exists m, v.
Qed.

Lemma main_run_inv w a fs m s0 :
  load_manifest fs (addons_path a) = Ok m ->
  main w a fs = Spawned s0 -> run_inv m s0.
Proof.
  intros Hm Hmain. destruct (main_spawned _ _ _ _ Hmain) as (m' & v & Hm' & _ & ->).
  rewrite Hm in Hm'. injection Hm' as <-.
  split; simpl; try done.
  - rewrite <- list_fmap_compose. apply list_fmap_id.
  - by eapply load_manifest_nodup.
Qed.

(** ** Runs *)

Lemma steps_left w a s1 s2 s3 :
  step w a s1 s2 -> steps w a s2 s3 -> steps w a s1 s3.
Proof.
  intros H12 H23. induction H23 as [|s2 s3 s4 _ IH H34].
  - eapply steps_step; [apply steps_refl|done].
  - eapply steps_step; [by apply IH|done].
Qed.

Lemma steps_trans w a s1 s2 s3 :
  steps w a s1 s2 -> steps w a s2 s3 -> steps w a s1 s3.
Proof.
  intros H12 H23. induction H23 as [|s2 s3 s4 _ IH H34]; [done|].
  eapply steps_step; [by apply IH|done].
Qed.

Lemma process_addon_step_terminal w a id sh p :
  terminal p = true -> process_addon_step w a id sh p = (sh, p).
Proof. by destruct p. Qed.

(** A thread that has returned stays as it is. *)
Lemma step_terminal_stays w a s s' i id p :
  step w a s s' -> threads s !! i = Some (id, p) -> terminal p = true ->
  threads s' !! i = Some (id, p).
Proof.
  intros Hstep Hi Ht. destruct Hstep as [s j idj pj sh' pj' Hj Hrun _]. simpl.
  rewrite list_lookup_insert_ne; [done|].
  intros ->. rewrite Hi in Hj. simplify_eq. congruence.
Qed.

Lemma steps_terminal_stays w a s s' i id p :
  steps w a s s' -> threads s !! i = Some (id, p) -> terminal p = true ->
  threads s' !! i = Some (id, p).
Proof.
  intros Hsteps Hi Ht. induction Hsteps as [|s1 s2 s3 _ IH Hstep]; [done|].
  eapply step_terminal_stays; [exact Hstep| |done]. by apply IH.
Qed.

(** Running one thread for [n] steps is a run. *)
Lemma run_thread_steps w a n s i id p :
  threads s !! i = Some (id, p) ->
  steps w a s
    {| mem := (run_thread w a n id (mem s) p).1;
       threads := <[i := (id, (run_thread w a n id (mem s) p).2)]> (threads s) |}.
Proof.
  revert s p. induction n as [|n IH]; intros s p Hi.
  - simpl. rewrite list_insert_id by done. destruct s. apply steps_refl.
  - cbn [run_thread].
    destruct (process_addon_step w a id (mem s) p) as [sh' p'] eqn:Hstep.
    destruct (terminal p) eqn:Ht.
    + rewrite process_addon_step_terminal in Hstep by done.
      injection Hstep as <- <-. by apply IH.
    + assert (i < length (threads s))%nat as Hlen by (by eapply lookup_lt_Some).
      eapply steps_left; [by eapply step_thread|].
      specialize (IH {| mem := sh'; threads := <[i := (id, p')]> (threads s) |} p').
      cbn [mem threads] in IH. rewrite list_insert_insert_eq in IH.
      apply IH. by apply list_lookup_insert_eq.
Qed.

(** The schedule that runs the threads in order is a run. *)
Lemma run_all_steps w a ts before sh :
  steps w a {| mem := sh; threads := before ++ ts |}
    {| mem := (run_all w a sh ts).1; threads := before ++ (run_all w a sh ts).2 |}.
Proof.
  revert before sh. induction ts as [|[id p] ts IH]; intros before sh.
  - apply steps_refl.
  - cbn [run_all].
    destruct (run_thread w a 7 id sh p) as [sh' p'] eqn:Hrun.
    destruct (run_all w a sh' ts) as [sh'' ts'] eqn:Hall. cbn [fst snd].
    eapply steps_trans.
    + apply (run_thread_steps w a 7 _ (length before) id p).
      cbn [threads]. by rewrite lookup_app_r, Nat.sub_diag.
    + cbn [mem threads]. rewrite Hrun. cbn [fst snd].
      replace (length before) with (length before + 0)%nat by lia.
      rewrite insert_app_r. cbn [insert list_insert].
      specialize (IH (before ++ [(id, p')]) sh'). rewrite Hall in IH.
      cbn [fst snd] in IH. by rewrite <- !app_assoc in IH.
Qed.

Lemma schedule_steps w a s : steps w a s (schedule w a s).
Proof.
  unfold schedule. destruct s as [sh ts]. cbn [mem threads].
  pose proof (run_all_steps w a ts [] sh) as H.
  by destruct (run_all w a sh ts).
Qed.

(** Every step brings a worker closer to its return. *)
Lemma process_addon_step_remaining w a id sh p :
  (remaining (process_addon_step w a id sh p).2 <= pred (remaining p))%nat.
Proof.
  destruct p; cbn [process_addon_step]; repeat case_match; simpl; lia.
Qed.







(** ** The manifest file in a run *)







(** ** The sample installation *)



(** ** No stamp advance without progress *)




(** ** A failed fetch *)

(** C7, as the specification words it, fails: the failure of one worker's
    fetch reaches another worker.  Items 42 and 7 have releases whose
    archives have the same name.  The worker of item 7 has fetched its
    archive and would extract it; the worker of item 42 then opens the
    same path for its own download, which empties the file, and its
    transfer breaks off: the worker of item 42 ends in [Failed], and the
    worker of item 7 finds an empty archive and dies in the extraction. *)
Lemma failed_fetch_reaches_other_worker :
  let w := Cases.colliding in
  let a := Sample.args false in
  let s := Cases.collision in
  let s' := after_step w a s 0 42 (Fetching (lit "One") (Some Cases.first) (lit "1_1")) in
  main w a Cases.pair_disk = Spawned Cases.pair_started /\
  steps w a Cases.pair_started s /\
  (process_addon_step w a 7 (mem s) (Extracting (lit "1_2") (lit "/wow/a.zip"))).2
  = Cleaning (lit "1_2") (lit "/wow/a.zip") /\
  step w a s s' /\
  threads s' = [(42, Failed); (7, Extracting (lit "1_2") (lit "/wow/a.zip"))] /\
  files (mem s') !! lit "/wow/a.zip" = Some [] /\
  (process_addon_step w a 7 (mem s') (Extracting (lit "1_2") (lit "/wow/a.zip"))).2
  = Crashed OtherError.
Proof.
  intros w a s s'. split; [reflexivity|]. split.
  { eapply steps_trans.
    - exact (run_thread_steps w a 4 Cases.pair_started 1 7 Start eq_refl).
    - exact (run_thread_steps w a 2
               (run_one w a 4 Cases.pair_started 1 7 Start) 0 42 Start eq_refl). }
  split; [reflexivity|]. split; [by eapply step_thread|].
  split; [reflexivity|]. split; reflexivity.
Qed.

Lemma download_release_fails w addons_path f fs :
  (download_release w addons_path (Some f) fs).2 = None ->
  (exists e, transfer w (downloadUrl f) = Raise e /\
     (download_release w addons_path (Some f) fs).1 = fs) \/
  (exists body e, transfer w (downloadUrl f) = Ok (body, Raise e) /\
     (download_release w addons_path (Some f) fs).1
     = <[os_path_join w addons_path (fileName f) := body]> fs).
Proof.
  cbn [download_release].
  destruct (transfer w (downloadUrl f)) as [[body [[]|e]]|e]; cbn [fst snd].
  - done.
  - right. by exists body, e.
  - left. by exists e.
Qed.

(** C7, amended.  In a run of the script, when [download_release] fails
    for the release a worker selected (it returns [None]), the worker
    returns at once ([Failed]).  Its step does not change the manifest in
    memory nor any other thread; of the files it changes at most its
    target, the file named like the release in the AddOns directory: the
    files are as before when the transfer did not start, and the target
    holds what had arrived when the transfer broke off.  From then on,
    whatever the other workers do, this worker stays returned, its item
    of the manifest in memory is the loaded one (the old version is
    retained), and once all threads have returned the script ends with
    status 0. *)
Theorem fetch_failure_is_isolated w a fs m s0 s i id nm f lv :
  load_manifest fs (addons_path a) = Ok m ->
  main w a fs = Spawned s0 ->
  steps w a s0 s ->
  threads s !! i = Some (id, Fetching nm (Some f) lv) ->
  (download_release w (addons_path a) (Some f) (files (mem s))).2 = None ->
  let target := os_path_join w (addons_path a) (fileName f) in
  let s' := after_step w a s i id (Fetching nm (Some f) lv) in
  step w a s s' /\
  threads s' !! i = Some (id, Failed) /\
  manifest (mem s') = manifest (mem s) /\
  ((exists e, transfer w (downloadUrl f) = Raise e /\
      files (mem s') = files (mem s)) \/
   (exists body e, transfer w (downloadUrl f) = Ok (body, Raise e) /\
      files (mem s') = <[target := body]> (files (mem s)))) /\
  (forall q, q <> target -> files (mem s') !! q = files (mem s) !! q) /\
  (forall j, j <> i -> threads s' !! j = threads s !! j) /\
  forall s'', steps w a s' s'' ->
    threads s'' !! i = Some (id, Failed) /\
    dict_get id (addons (manifest (mem s''))) = dict_get id (addons m) /\
    (joined s'' = true -> exit_status s'' = Some 0).
Proof.
  intros Hm Hmain Hsteps Hi Hfetch target s'.
  assert (i < length (threads s))%nat as Hlen by (by eapply lookup_lt_Some).
  assert (process_addon_step w a id (mem s) (Fetching nm (Some f) lv)
          = (with_files (with_request (mem s) (downloadUrl f))
               (download_release w (addons_path a) (Some f) (files (mem s))).1,
             Failed)) as Hrun.
  { cbn [process_addon_step].
    destruct (download_release _ _ _ _) as [fs' [zip|]]; [discriminate Hfetch|done]. }
  assert (step w a s s') as Hstep.
  { unfold s', after_step. rewrite Hrun. by eapply step_thread. }
  assert (threads s' !! i = Some (id, Failed)) as Hi'.
  { unfold s', after_step. rewrite Hrun. cbn [threads snd].
    by apply list_lookup_insert_eq. }
  assert (files (mem s')
          = (download_release w (addons_path a) (Some f) (files (mem s))).1)
    as Hfiles by (unfold s', after_step; by rewrite Hrun).
  split; [done|]. split; [done|].
  split; [unfold s', after_step; by rewrite Hrun|].
  split; [rewrite Hfiles; by apply download_release_fails|].
  split.
  { intros q Hq. rewrite Hfiles.
    destruct (download_release_fails _ _ _ _ Hfetch)
      as [(e & _ & ->)|(body & e & _ & ->)]; [done|].
    by apply lookup_insert_ne. }
  split.
  { intros j Hj. unfold s', after_step. cbn [threads].
    by rewrite list_lookup_insert_ne. }
  intros s'' Hsteps'.
  assert (threads s'' !! i = Some (id, Failed)) as Hi''
    by (by eapply steps_terminal_stays).
  split; [done|]. split.
  - pose proof (main_run_inv _ _ _ _ _ Hm Hmain) as Hinv0.
    assert (steps w a s0 s'') as Hall.
    { eapply steps_trans; [|exact Hsteps']. by eapply steps_step. }
    pose proof (steps_run_inv _ _ _ _ _ Hinv0 Hall) as Hinv.
    by eapply (inv_entry _ _ Hinv).
  - intros Hj. unfold exit_status. by rewrite Hj.
Qed.

Lemma fetch_failure_is_isolated_witness :
  let s' := after_step Sample.unreachable (Sample.args false) Sample.fetching 0 42
              (Fetching (lit "Addon") (Some Sample.newer) (lit "1_1")) in
  step Sample.unreachable (Sample.args false) Sample.fetching s' /\
  dict_get 42 (addons (manifest (mem (schedule Sample.unreachable (Sample.args false) s'))))
  = Ok {| install_alpha := false; entry_version := lit "1_0" |}.
Proof.
  intros s'.
  assert (steps Sample.unreachable (Sample.args false) Sample.started Sample.fetching)
    as Hsteps.
  { exact (run_thread_steps Sample.unreachable (Sample.args false) 2
             Sample.started 0 42 Start eq_refl). }
  destruct (fetch_failure_is_isolated Sample.unreachable (Sample.args false)
              Sample.disk Sample.ledger Sample.started Sample.fetching
              0 42 (lit "Addon") Sample.newer (lit "1_1")
              eq_refl eq_refl Hsteps eq_refl eq_refl)
    as (Hstep & _ & _ & _ & _ & _ & Hlater).
  split; [exact Hstep|].
  destruct (Hlater _ (schedule_steps _ _ _)) as (_ & He & _). exact He.
Defined.

(** ** The entry map *)

(** C10.  In a run of the script, the manifest in memory always has the
    items of the loaded manifest, in their order and with their
    [install_alpha]: nothing is added, removed or re-flagged.
    [update_version] on it changes the version of the named item and
    nothing else (it raises [KeyError] on an absent one), and the step that
    runs [update_version] and [commit] leaves the manifest as
    [update_version] made it: [commit] only writes the file. *)
Theorem entry_map_is_stable w a fs m s0 s :
  load_manifest fs (addons_path a) = Ok m ->
  main w a fs = Spawned s0 ->
  steps w a s0 s ->
  let now := manifest (mem s) in
  flags (addons now) = flags (addons m) /\
  keys (addons now) = keys (addons m) /\
  (forall id v m',
     update_version now id v = Ok m' ->
     flags (addons m') = flags (addons now) /\
     manifest_path m' = manifest_path now /\
     version m' = version now /\
     (forall k, k <> id -> dict_get k (addons m') = dict_get k (addons now)) /\
     exists e, dict_get id (addons now) = Ok e /\
       dict_get id (addons m')
       = Ok {| install_alpha := install_alpha e; entry_version := v |}) /\
  (forall id v, id ∉ keys (addons now) -> update_version now id v = Raise KeyError) /\
  (forall id v m',
     update_version now id v = Ok m' ->
     manifest (process_addon_step w a id (mem s) (Recording v)).1 = m').
Proof.
  intros Hm Hmain Hsteps now.
  pose proof (main_run_inv _ _ _ _ _ Hm Hmain) as Hinv0.
  pose proof (steps_run_inv _ _ _ _ _ Hinv0 Hsteps) as Hinv.
  pose proof (inv_flags _ _ Hinv) as Hflags. fold now in Hflags.
  split; [done|]. split.
  { apply (f_equal (fmap fst)) in Hflags. unfold flags in Hflags.
    by rewrite <- !list_fmap_compose in Hflags. }
  split; [|split].
  - intros id v m' Hu. destruct (update_version_ok _ _ _ _ Hu) as (e & He & ->).
    cbn [addons manifest_path version].
    split; [by apply flags_dict_set|]. split; [done|]. split; [done|].
    split; [by intros k Hk; apply dict_get_set_ne|].
    exists e. split; [done|apply dict_get_set_eq].
  - intros id v Hid. unfold update_version.
    by rewrite (dict_get_absent _ _ Hid).
  - intros id v m' Hu. cbn [process_addon_step]. fold now. rewrite Hu.
    by destruct (commit (encodes w) m' (files (mem s))) as [fs' [[]|x]].
Qed.

Lemma entry_map_is_stable_witness :
  flags (addons (manifest (mem (schedule Sample.reachable (Sample.args false)
                                          Sample.started))))
  = [(42, false)].
Proof.
  apply (entry_map_is_stable Sample.reachable (Sample.args false) Sample.disk
           Sample.ledger Sample.started).
  - reflexivity.
  - reflexivity.
  - apply schedule_steps.
Defined.
(** ** Reading back what [commit] wrote *)

Lemma rdigits_value fuel n :
  (n < 2 ^ N.of_nat fuel)%N -> value (rdigits fuel n) = Z.of_N n.
Proof.
  revert n. induction fuel as [|fuel IH]; intros n Hn.
  - simpl in *. lia.
  - cbn [rdigits value]. destruct (N.ltb_spec n 10) as [Hlt|Hge].
    + simpl. rewrite N.mod_small by done. lia.
    + rewrite IH.
      * rewrite (N.div_mod n 10) at 3 by lia. lia.
      * rewrite Nat2N.inj_succ, N.pow_succ_r' in Hn.
        apply N.Div0.div_lt_upper_bound. lia.
Qed.

Lemma rdigits_fuel n : (n < 2 ^ N.of_nat (S (N.to_nat (N.log2 n))))%N.
Proof.
  rewrite Nat2N.inj_succ, N2Nat.id.
  destruct n as [|p]; [done|]. apply N.log2_spec. lia.
Qed.

Lemma parse_digits_digits ds acc prev :
  Forall (fun d => (d < 10)%N) ds ->
  ds <> [] \/ prev = true ->
  parse_digits acc prev ((fun d => (48 + d)%N) <$> ds)
  = Some (foldl (fun a d => 10 * a + Z.of_N d) acc ds).
Proof.
  intros Hds. revert acc prev. induction Hds as [|d ds Hd _ IH]; intros acc prev Hne.
  - destruct Hne as [Hne | ->]; done.
  - cbn [fmap list_fmap parse_digits foldl].
    destruct (N.eqb_spec (48 + d) UNDERSCORE) as [He|_].
    { unfold UNDERSCORE in He. lia. }
    unfold digit_value.
    destruct (N.leb_spec 48 (48 + d)); [|lia].
    destruct (N.leb_spec (48 + d) 57); [|lia]. simpl.
    rewrite IH by (by right). do 3 f_equal. lia.
Qed.

Lemma foldl_rev_value ds :
  foldl (fun a d => 10 * a + Z.of_N d) 0 (rev ds) = value ds.
Proof.
  induction ds as [|d ds IH]; [done|].
  simpl. rewrite foldl_app. simpl. rewrite IH. lia.
Qed.

Lemma parse_str_of_N n : parse_digits 0 false (str_of_N n) = Some (Z.of_N n).
Proof.
  unfold str_of_N. rewrite parse_digits_digits.
  - by rewrite foldl_rev_value, rdigits_value by apply rdigits_fuel.
  - apply Forall_rev, rdigits_lt.
  - left. intros H. apply (f_equal length) in H.
    rewrite length_rev in H. simpl in H. lia.
Qed.

Lemma str_of_N_head n : exists c r, str_of_N n = c :: r /\ (48 <= c <= 57)%N.
Proof.
  pose proof (parse_str_of_N n) as Hp. pose proof (str_of_N_chars n) as Hc.
  destruct (str_of_N n) as [|c r]; [done|].
  apply Forall_cons in Hc as [Hc _]. by exists c, r.
Qed.

Lemma int_of_str_of_int k : int_of_str (str_of_int k) = Some k.
Proof.
  unfold str_of_int. destruct (Z.ltb_spec k 0) as [Hneg|Hpos].
  - simpl. rewrite parse_str_of_N. simpl. f_equal. lia.
  - destruct (str_of_N_head (Z.abs_N k)) as (c & r & Heq & Hc).
    pose proof (parse_str_of_N (Z.abs_N k)) as Hp. rewrite Heq in *.
    unfold int_of_str.
    destruct (N.eqb_spec c 45); [lia|]. destruct (N.eqb_spec c 43); [lia|].
    rewrite Hp. f_equal. lia.
Qed.

Lemma int_char_not_space c : is_int_char c -> is_space c = false.
Proof.
  intros [-> | Hc]; [done|]. unfold is_space.
  repeat match goal with
         | |- context [(?x <=? ?y)%N] => destruct (N.leb_spec x y); try lia
         | |- context [(?x =? ?y)%N] => destruct (N.eqb_spec x y); try lia
         end; done.
Qed.

Lemma str_of_int_no_space k : no_space (str_of_int k).
Proof.
  eapply Forall_impl; [apply str_of_int_chars|]. apply int_char_not_space.
Qed.

Lemma str_of_int_nonempty k : str_of_int k <> [].
Proof.
  unfold str_of_int. destruct (str_of_N_head (Z.abs_N k)) as (c & r & -> & _).
  by destruct (k <? 0).
Qed.

Lemma lstrip_no_space s : no_space s -> lstrip s = s.
Proof. intros H. destruct H as [|c r Hc _]; [done|]. simpl. by rewrite Hc. Qed.

Lemma rstrip_line v : no_space v -> rstrip (v ++ [LF]) = v.
Proof.
  intros Hv. unfold rstrip. rewrite rev_app_distr. simpl.
  rewrite lstrip_no_space by (by apply Forall_rev). apply rev_involutive.
Qed.

Lemma no_space_not c (s : str) : no_space s -> is_space c = true -> c ∉ s.
Proof.
  intros Hs Hc Hin. unfold no_space in Hs. rewrite Forall_forall in Hs.
  specialize (Hs _ Hin). congruence.
Qed.

Lemma universal_newlines_id (s : str) : CR ∉ s -> universal_newlines s = s.
Proof.
  induction s as [|c s IH]; [done|]. rewrite not_elem_of_cons. intros [Hc Hs].
  cbn [universal_newlines]. destruct (N.eqb_spec c CR); [done|]. by rewrite IH.
Qed.

Lemma readline_line (l rest : str) :
  LF ∉ l -> readline (l ++ LF :: rest) = (l ++ [LF], rest).
Proof.
  induction l as [|c l IH]; [done|]. rewrite not_elem_of_cons. intros [Hc Hl].
  cbn [app readline]. destruct (N.eqb_spec c LF); [done|]. by rewrite IH.
Qed.

Lemma lines_from_line (cur l rest : str) :
  LF ∉ l ->
  lines_from cur (l ++ LF :: rest) = (cur ++ l ++ [LF]) :: lines_from [] rest.
Proof.
  revert cur. induction l as [|c l IH]; intros cur.
  - intros _. simpl. done.
  - rewrite not_elem_of_cons. intros [Hc Hl].
    cbn [app lines_from]. destruct (N.eqb_spec c LF); [done|].
    rewrite IH by done. by rewrite <- app_assoc.
Qed.

Lemma split_from_token (tok t r : str) :
  no_space t -> split_from tok (t ++ r) = split_from (tok ++ t) r.
Proof.
  intros Ht. revert tok. induction Ht as [|c t Hc _ IH]; intros tok.
  - by rewrite app_nil_r.
  - cbn [app split_from]. rewrite Hc, IH. by rewrite <- app_assoc.
Qed.

Lemma split_from_space (tok r : str) c :
  is_space c = true -> tok <> [] ->
  split_from tok (c :: r) = tok :: split_from [] r.
Proof. intros Hc Htok. cbn [split_from]. rewrite Hc. by destruct tok. Qed.

(** The three columns of a line of the manifest. *)
Lemma split_entry_line (c0 c1 c2 : str) :
  no_space c0 -> no_space c1 -> no_space c2 ->
  c0 <> [] -> c1 <> [] -> c2 <> [] ->
  split (c0 ++ SPACE :: c1 ++ SPACE :: c2 ++ [LF]) = [c0; c1; c2].
Proof.
  intros H0 H1 H2 N0 N1 N2. unfold split.
  rewrite split_from_token, app_nil_l by done.
  rewrite split_from_space by done.
  rewrite split_from_token, app_nil_l by done.
  rewrite split_from_space by done.
  rewrite split_from_token, app_nil_l by done.
  by rewrite split_from_space.
Qed.

Lemma parse_line_columns line (c0 c1 c2 : str) id flag :
  split line = [c0; c1; c2] ->
  int_of_str c0 = Some id -> int_of_str c1 = Some flag ->
  parse_line line
  = Ok (id, {| install_alpha := negb (flag =? 0); entry_version := c2 |}).
Proof.
  intros Hs H0 H1. unfold parse_line. rewrite Hs.
  unfold index, int. simpl. rewrite H0. simpl. by rewrite H1.
Qed.

Lemma parse_entry_line k e :
  entry_version e <> [] -> no_space (entry_version e) ->
  parse_line (entry_line (k, e)) = Ok (k, e).
Proof.
  intros Hne Hns.
  rewrite (parse_line_columns _ (str_of_int k)
             (if install_alpha e then lit "1" else lit "0") (entry_version e)
             k (if install_alpha e then 1 else 0)).
  - by destruct e as [[] ver].
  - change (entry_line (k, e))
      with (str_of_int k ++ SPACE ::
            (if install_alpha e then lit "1" else lit "0") ++ SPACE ::
            entry_version e ++ [LF]).
    apply split_entry_line; try done.
    + apply str_of_int_no_space.
    + destruct (install_alpha e); by repeat constructor.
    + apply str_of_int_nonempty.
    + by destruct (install_alpha e).
  - apply int_of_str_of_int.
  - by destruct (install_alpha e).
Qed.

Lemma no_space_inline s : no_space s -> Forall inline s.
Proof.
  intros Hs. eapply Forall_impl; [exact Hs|].
  intros c Hc. split; intros ->; discriminate Hc.
Qed.

Lemma inline_not_in (s : str) : Forall inline s -> (LF ∉ s) /\ (CR ∉ s).
Proof.
  intros H. rewrite Forall_forall in H.
  split; intros Hin; destruct (H _ Hin) as [H1 H2]; done.
Qed.

Lemma entry_line_shape item :
  no_space (entry_version item.2) ->
  exists body, entry_line item = body ++ [LF] /\ Forall inline body.
Proof.
  intros Hv. destruct item as [k e].
  exists (str_of_int k ++ SPACE ::
          (if install_alpha e then lit "1" else lit "0") ++ SPACE :: entry_version e).
  split.
  - unfold entry_line. cbn [fst snd].
    repeat first [rewrite <- app_assoc | progress cbn [app]]. done.
  - apply Forall_app. split; [apply no_space_inline, str_of_int_no_space|].
    constructor; [done|]. apply Forall_app. split.
    + destruct (install_alpha e); by repeat constructor.
    + constructor; [done|]. by apply no_space_inline.
Qed.

Lemma file_lines_entries d :
  Forall token_entry d ->
  file_lines (concat (entry_line <$> d)) = entry_line <$> d.
Proof.
  unfold file_lines. induction 1 as [|item d [_ Hv] _ IH]; [done|].
  rewrite fmap_cons. cbn [concat].
  destruct (entry_line_shape item Hv) as (body & -> & Hb).
  rewrite <- app_assoc. cbn [app].
  rewrite lines_from_line by (by apply inline_not_in). by rewrite IH.
Qed.

Lemma entries_no_cr d :
  Forall token_entry d -> CR ∉ concat (entry_line <$> d).
Proof.
  induction 1 as [|item d [_ Hv] _ IH]; [by apply not_elem_of_nil|].
  rewrite fmap_cons. cbn [concat]. rewrite elem_of_app. intros [Hin|Hin]; [|done].
  destruct (entry_line_shape item Hv) as (body & Heq & Hb). rewrite Heq in Hin.
  apply elem_of_app in Hin as [Hin|Hin].
  - by apply inline_not_in in Hb as [_ Hb].
  - by apply list_elem_of_singleton in Hin.
Qed.

Lemma dict_set_fresh k e d : k ∉ keys d -> dict_set k e d = d ++ [(k, e)].
Proof.
  unfold keys. induction d as [|[k' e'] d IH]; [done|].
  rewrite fmap_cons, not_elem_of_cons. cbn [fst dict_set]. intros [Hne Hin].
  destruct (Z.eqb_spec k k'); [done|]. by rewrite IH.
Qed.

Lemma load_lines_entries d acc :
  NoDup (keys (acc ++ d)) -> Forall token_entry d ->
  load_lines acc (entry_line <$> d) = Ok (acc ++ d).
Proof.
  intros Hnd Hd. revert acc Hnd.
  induction Hd as [|[k e] d [Hne Hv] _ IH]; intros acc Hnd.
  - by rewrite app_nil_r.
  - rewrite fmap_cons. cbn [load_lines].
    rewrite parse_entry_line by done. simpl mbind.
    change (load_lines (dict_set k e acc) (entry_line <$> d)
            = Ok (acc ++ (k, e) :: d)).
    assert (k ∉ keys acc) as Hfresh.
    { unfold keys in *. rewrite fmap_app, fmap_cons in Hnd.
      apply NoDup_app in Hnd as (_ & Hdis & _). intros Hin.
      apply (Hdis _ Hin). by left. }
    rewrite dict_set_fresh by done.
    rewrite IH; [by rewrite <- app_assoc|]. by rewrite <- app_assoc.
Qed.

Lemma serialize_no_cr v d :
  no_space v -> Forall token_entry d -> CR ∉ serialize v d.
Proof.
  intros Hv Hd. unfold serialize. rewrite !elem_of_app.
  intros [Hin|[Hin|Hin]].
  - by apply (no_space_not CR v Hv).
  - by apply list_elem_of_singleton in Hin.
  - by apply (entries_no_cr d Hd).
Qed.


(** C8, as the specification words it, fails: an empty version has no
    whitespace in it, but its line has two columns only, and reading the
    file back raises [IndexError] at [cols[2]]. *)
Lemma roundtrip_fails_on_empty_version :
  no_space (lit "v1") /\
  Forall (fun item => no_space (entry_version item.2)) (addons Sample.blank) /\
  (commit Sample.utf8 Sample.blank ∅).2 = Ok tt /\
  (commit Sample.utf8 Sample.blank ∅).1 !! Sample.path
    = Some (lit "v1" ++ [LF] ++ lit "42 0 " ++ [LF]) /\
  load_manifest (commit Sample.utf8 Sample.blank ∅).1 Sample.root
  = Raise IndexError.
Proof.
  split; [by repeat constructor|]. split; [by repeat constructor|].
  repeat split; reflexivity.
Qed.

(** C8, amended.  For every manifest whose catalog version is assigned
    and has no whitespace in it, whose installed versions are not empty
    and have no whitespace in them, and whose lines the encoding of the
    file can hold, [commit] returns and loading the file it wrote yields
    the same manifest: the same catalog version and the same items in the
    same order, each with its flag and its version.  (The keys of a
    [dict] are distinct.) *)
Theorem commit_load_roundtrip enc fs base_path m v :
  manifest_path m = base_path ++ lit "/wau_manifest.txt" ->
  version m = Some v ->
  no_space v ->
  NoDup (keys (addons m)) ->
  Forall token_entry (addons m) ->
  writable enc v (addons m) ->
  (commit enc m fs).2 = Ok tt /\
  load_manifest (commit enc m fs).1 base_path = Ok m.
Proof.
  intros Hpath Hver Hv Hnd Hd Hw. rewrite (commit_set _ _ _ _ Hver Hw).
  cbn [fst snd]. split; [done|].
  unfold load_manifest, WAU_Manifest_init.
  rewrite <- Hpath, lookup_insert_eq.
  rewrite universal_newlines_id by (by apply serialize_no_cr).
  unfold serialize. cbn [app].
  rewrite readline_line by (by apply (no_space_not LF v Hv)).
  rewrite rstrip_line by done.
  rewrite file_lines_entries by done.
  rewrite (load_lines_entries (addons m) []) by done.
  simpl. destruct m. simpl in *. by subst.
Qed.

Lemma commit_load_roundtrip_witness :
  load_manifest (commit Sample.utf8 Sample.ledger ∅).1 Sample.root
  = Ok Sample.ledger.
Proof.
  apply (commit_load_roundtrip Sample.utf8 ∅ Sample.root Sample.ledger (lit "v1")).
  - reflexivity.
  - reflexivity.
  - repeat constructor.
  - apply NoDup_singleton.
  - constructor; [|constructor]. split; [discriminate|repeat constructor].
  - repeat constructor.
Defined.
(** * Further properties *)

(** ** What [split], [rstrip] and the reading of lines give *)

Lemma split_from_tokens (tok s : str) :
  no_space tok ->
  Forall (fun t => t <> [] /\ no_space t) (split_from tok s).
Proof.
  revert tok. induction s as [|c s IH]; intros tok Htok.
  - simpl. destruct tok; [constructor|]. constructor; [done|constructor].
  - cbn [split_from]. destruct (is_space c) eqn:Hc.
    + destruct tok as [|c' tok'].
      * apply IH. constructor.
      * constructor; [done|]. apply IH. constructor.
    + apply IH. apply Forall_app. split; [done|]. constructor; [done|constructor].
Qed.

Lemma split_tokens (s : str) :
  Forall (fun t => t <> [] /\ no_space t) (split s).
Proof. apply split_from_tokens. constructor. Qed.

Lemma split_blank (s : str) : blank s -> split s = [].
Proof.
  unfold split. induction 1 as [|c s Hc _ IH]; [done|].
  cbn [split_from]. by rewrite Hc.
Qed.

Lemma lstrip_suffix (s : str) : exists t, s = t ++ lstrip s /\ blank t.
Proof.
  induction s as [|c s (t & Ht & Hb)].
  - exists []. split; [done|constructor].
  - cbn [lstrip]. destruct (is_space c) eqn:Hc.
    + exists (c :: t). split; [simpl; by rewrite <- Ht|by constructor].
    + exists []. split; [done|constructor].
Qed.

Lemma lstrip_head (s : str) c : head (lstrip s) = Some c -> is_space c = false.
Proof.
  induction s as [|c' s IH]; [done|]. cbn [lstrip].
  destruct (is_space c') eqn:Hc; [done|]. simpl. by intros [= <-].
Qed.

Lemma lstrip_keeps (s : str) :
  (forall c, head s = Some c -> is_space c = false) -> lstrip s = s.
Proof.
  destruct s as [|c s]; [done|]. intros H. cbn [lstrip]. by rewrite (H c).
Qed.

Lemma head_rev_last (s : str) : head (rev s) = last s.
Proof.
  induction s as [|c s IH] using rev_ind; [done|].
  by rewrite rev_app_distr, last_snoc.
Qed.

(** [rstrip] cuts a run of whitespace off the end and nothing else. *)
Lemma rstrip_prefix (s : str) : exists t, s = rstrip s ++ t /\ blank t.
Proof.
  unfold rstrip. destruct (lstrip_suffix (rev s)) as (t & Ht & Hb).
  exists (rev t). split; [|by apply Forall_rev].
  rewrite <- rev_app_distr, <- Ht. by rewrite rev_involutive.
Qed.

Lemma rstrip_no_trailing_space (s : str) : no_trailing_space (rstrip s).
Proof.
  intros c Hc. unfold rstrip in Hc. rewrite <- head_rev_last, rev_involutive in Hc.
  by apply lstrip_head in Hc.
Qed.

Lemma rstrip_keeps (v : str) : no_trailing_space v -> rstrip v = v.
Proof.
  intros Hv. unfold rstrip. rewrite lstrip_keeps; [apply rev_involutive|].
  intros c Hc. rewrite head_rev_last in Hc. by apply Hv.
Qed.

Lemma rstrip_snoc_space (s : str) c :
  is_space c = true -> rstrip (s ++ [c]) = rstrip s.
Proof.
  intros Hc. unfold rstrip. rewrite rev_app_distr. simpl. by rewrite Hc.
Qed.

Lemma rstrip_stamp_line v : stamp v -> rstrip (v ++ [LF]) = v.
Proof. intros [_ Hv]. rewrite rstrip_snoc_space by done. by apply rstrip_keeps. Qed.

Lemma universal_newlines_no_cr (s : str) : CR ∉ universal_newlines s.
Proof.
  induction s as [s IH] using (induction_ltof1 _ (@length N)).
  unfold ltof in IH. destruct s as [|c s]; [apply not_elem_of_nil|].
  cbn [universal_newlines]. destruct (N.eqb_spec c CR) as [->|Hc].
  - destruct s as [|c' s'].
    + by intros ?%list_elem_of_singleton.
    + destruct (c' =? LF)%N; rewrite not_elem_of_cons; (split; [done|]);
        apply IH; simpl; lia.
  - rewrite not_elem_of_cons. split; [done|]. apply IH. simpl. lia.
Qed.

(** The first line is cut at the first line feed, or is the whole text. *)
Lemma readline_shape (s : str) :
  (exists l, (readline s).1 = l ++ [LF] /\ (LF ∉ l) /\
             s = l ++ LF :: (readline s).2) \/
  ((LF ∉ s) /\ readline s = (s, [])).
Proof.
  induction s as [|c s IH].
  - right. split; [apply not_elem_of_nil|done].
  - cbn [readline]. destruct (N.eqb_spec c LF) as [->|Hc].
    + left. exists []. split; [done|]. split; [apply not_elem_of_nil|done].
    + destruct (readline s) as [l rest]. destruct IH as [(l' & Hl & Hn & Hs)|[Hn Hs]].
      * left. exists (c :: l'). simpl in *. split; [by rewrite Hl|].
        split; [by apply not_elem_of_cons|]. by rewrite Hs at 1.
      * right. injection Hs as -> ->. split; [by apply not_elem_of_cons|done].
Qed.

(** ** What a loaded manifest is like *)

Lemma load_manifest_present fs base_path raw m :
  fs !! (base_path ++ lit "/wau_manifest.txt") = Some raw ->
  load_manifest fs base_path = Ok m ->
  exists d,
    load_lines [] (file_lines (readline (universal_newlines raw)).2) = Ok d /\
    m = {| addons := d;
           manifest_path := base_path ++ lit "/wau_manifest.txt";
           version := Some (rstrip (readline (universal_newlines raw)).1) |}.
Proof.
  intros Hraw. unfold load_manifest, WAU_Manifest_init. rewrite Hraw.
  destruct (readline _) as [first rest]. cbn [fst snd].
  destruct (load_lines [] _) as [d|x]; simpl; [|done].
  intros [= <-]. by exists d.
Qed.

Lemma load_manifest_path fs base_path m :
  load_manifest fs base_path = Ok m ->
  manifest_path m = base_path ++ lit "/wau_manifest.txt".
Proof.
  unfold load_manifest, WAU_Manifest_init. destruct (fs !! _) as [raw|].
  - destruct (readline _) as [first rest].
    destruct (load_lines [] _) as [d|x]; simpl; [|done]. by intros [= <-].
  - by intros [= <-].
Qed.

Lemma first_line_stamp (s : str) : CR ∉ s -> stamp (rstrip (readline s).1).
Proof.
  intros Hcr.
  assert (forall l : str, (LF ∉ l) -> (CR ∉ l) -> stamp (rstrip l)) as Hl.
  { intros l Hlf Hc. split; [|apply rstrip_no_trailing_space].
    destruct (rstrip_prefix l) as (t & Ht & _).
    apply Forall_forall. intros c Hin.
    assert (c ∈ l) as Hin' by (rewrite Ht; apply elem_of_app; by left).
    split; intros ->; done. }
  destruct (readline_shape s) as [(l & Hfirst & Hlf & Hs)|[Hlf Hs]].
  - rewrite Hfirst, rstrip_snoc_space by done. apply Hl; [done|].
    intros Hin. apply Hcr. rewrite Hs. apply elem_of_app. by left.
  - rewrite Hs. by apply Hl.
Qed.

Lemma parse_line_token line item : parse_line line = Ok item -> token_entry item.
Proof.
  unfold parse_line. pose proof (split_tokens line) as Ht.
  destruct (split line) as [|c0 [|c1 [|c2 r]]]; simpl; try done.
  - by destruct (int c0).
  - destruct (int c0); simpl; [|done]. by destruct (int c1).
  - destruct (int c0); simpl; [|done]. destruct (int c1); simpl; [|done].
    intros [= <-]. unfold token_entry. simpl.
    by apply Forall_cons in Ht as [_ [_ [Hc2 _]%Forall_cons]%Forall_cons].
Qed.

Lemma parse_line_raises line e :
  parse_line line = Raise e -> e = IndexError \/ e = ValueError.
Proof.
  unfold parse_line, index, int.
  destruct (split line) as [|c0 [|c1 [|c2 r]]]; simpl;
    repeat (destruct (int_of_str _); simpl); intros [= <-]; auto.
Qed.

Lemma dict_set_Forall (P : Z * entry -> Prop) k e d :
  P (k, e) -> Forall P d -> Forall P (dict_set k e d).
Proof.
  intros Hk. induction 1 as [|[k' e'] d Hx Hd IH]; simpl.
  - by repeat constructor.
  - destruct (k =? k'); by constructor.
Qed.

Lemma load_lines_tokens ls d d' :
  load_lines d ls = Ok d' -> Forall token_entry d -> Forall token_entry d'.
Proof.
  revert d. induction ls as [|line ls IH]; intros d; simpl.
  - by intros [= ->].
  - destruct (parse_line line) as [[id e]|x] eqn:Hp; simpl; [|done].
    intros H Hd. eapply IH; [exact H|].
    apply dict_set_Forall; [|done]. by apply (parse_line_token line).
Qed.

Lemma load_lines_app ls1 ls2 d :
  load_lines d (ls1 ++ ls2) = (load_lines d ls1 ≫= fun d' => load_lines d' ls2).
Proof.
  revert d. induction ls1 as [|line ls1 IH]; intros d; [done|].
  cbn [app load_lines]. destruct (parse_line line) as [[id e]|x]; simpl; [|done].
  apply IH.
Qed.

Lemma load_lines_raises ls d e :
  load_lines d ls = Raise e -> e = IndexError \/ e = ValueError.
Proof.
  revert d. induction ls as [|line ls IH]; intros d; simpl; [done|].
  destruct (parse_line line) as [[id e']|x] eqn:Hp; simpl.
  - apply IH.
  - intros [= <-]. by apply (parse_line_raises line).
Qed.

Lemma serialize_stamp_no_cr v d :
  stamp v -> Forall token_entry d -> CR ∉ serialize v d.
Proof.
  intros [Hv _] Hd. unfold serialize. rewrite !elem_of_app.
  intros [Hin|[Hin|Hin]].
  - by apply inline_not_in in Hv as [_ Hv].
  - by apply list_elem_of_singleton in Hin.
  - by apply (entries_no_cr d Hd).
Qed.

(** Reading a serialization gives the manifest it was made of. *)
Lemma load_serialized fs base_path m v :
  manifest_path m = base_path ++ lit "/wau_manifest.txt" ->
  version m = Some v ->
  stamp v ->
  NoDup (keys (addons m)) ->
  Forall token_entry (addons m) ->
  load_manifest (<[manifest_path m := serialize v (addons m)]> fs) base_path = Ok m.
Proof.
  intros Hpath Hver Hv Hnd Hd.
  unfold load_manifest, WAU_Manifest_init.
  rewrite <- Hpath, lookup_insert_eq.
  rewrite universal_newlines_id by (by apply serialize_stamp_no_cr).
  unfold serialize. cbn [app].
  rewrite readline_line by (by destruct Hv as [[? _]%inline_not_in _]).
  rewrite rstrip_stamp_line by done.
  rewrite file_lines_entries by done.
  rewrite (load_lines_entries (addons m) []) by done.
  simpl. destruct m. simpl in *. by subst.
Qed.

Lemma loaded_reloads fs base_path raw m :
  fs !! (base_path ++ lit "/wau_manifest.txt") = Some raw ->
  load_manifest fs base_path = Ok m ->
  exists v, version m = Some v /\ stamp v /\
    NoDup (keys (addons m)) /\ Forall token_entry (addons m).
Proof.
  intros Hraw Hm.
  destruct (load_manifest_present _ _ _ _ Hraw Hm) as (d & Hd & Heq).
  exists (rstrip (readline (universal_newlines raw)).1).
  split; [by subst m|]. split; [apply first_line_stamp, universal_newlines_no_cr|].
  split; [by eapply load_manifest_nodup|].
  subst m. simpl. eapply load_lines_tokens; [exact Hd|constructor].
Qed.

(** ** What an encoding holds *)

Lemma forallb_Forall (f : char -> bool) (s : str) :
  forallb f s = true <-> Forall (fun c => f c = true) s.
Proof.
  induction s as [|c s IH]; simpl; [by split; [constructor|]|].
  rewrite andb_true_iff, Forall_cons. by rewrite IH.
Qed.

Lemma universal_newlines_Forall (P : char -> Prop) (s : str) :
  P LF -> Forall P s -> Forall P (universal_newlines s).
Proof.
  intros HLF. induction s as [s IH] using (induction_ltof1 _ (@length N)).
  unfold ltof in IH. destruct s as [|c s]; [done|]. intros Hs.
  apply Forall_cons in Hs as [Hc Hs].
  cbn [universal_newlines]. destruct (c =? CR)%N.
  - destruct s as [|c' s'].
    + by repeat constructor.
    + destruct (c' =? LF)%N; (constructor; [done|]).
      * apply IH; [simpl; lia|]. by apply Forall_cons in Hs as [_ ?].
      * apply IH; [simpl; lia|done].
  - constructor; [done|]. apply IH; [simpl; lia|done].
Qed.

Lemma readline_Forall (P : char -> Prop) (s : str) :
  Forall P s -> Forall P (readline s).1 /\ Forall P (readline s).2.
Proof.
  induction 1 as [|c s Hc Hs [IH1 IH2]]; [done|]. cbn [readline].
  destruct (c =? LF)%N; [by repeat constructor|].
  destruct (readline s) as [l rest]. simpl in *. split; [by constructor|done].
Qed.

Lemma rstrip_Forall (P : char -> Prop) (s : str) :
  Forall P s -> Forall P (rstrip s).
Proof.
  intros H. destruct (rstrip_prefix s) as (t & Ht & _). rewrite Ht in H.
  by apply Forall_app in H as [? _].
Qed.

Lemma lines_from_Forall (P : char -> Prop) (cur s : str) :
  Forall P cur -> Forall P s -> Forall (Forall P) (lines_from cur s).
Proof.
  intros Hcur Hs. revert cur Hcur.
  induction Hs as [|c s Hc Hs IH]; intros cur Hcur.
  - destruct cur; simpl; [constructor|]. constructor; [done|constructor].
  - cbn [lines_from].
    assert (Forall P (cur ++ [c])) as Hnext.
    { apply Forall_app. split; [done|]. constructor; [done|constructor]. }
    destruct (c =? LF)%N; [constructor; [done|by apply IH]|by apply IH].
Qed.

Lemma split_from_Forall (P : char -> Prop) (tok s : str) :
  Forall P tok -> Forall P s -> Forall (Forall P) (split_from tok s).
Proof.
  intros Htok Hs. revert tok Htok.
  induction Hs as [|c s Hc Hs IH]; intros tok Htok.
  - destruct tok; simpl; [constructor|]. constructor; [done|constructor].
  - cbn [split_from]. destruct (is_space c).
    + destruct tok; [by apply IH|constructor; [done|by apply IH]].
    + apply IH. apply Forall_app. split; [done|].
      constructor; [done|constructor].
Qed.

Lemma parse_line_Forall (P : char -> Prop) line item :
  parse_line line = Ok item -> Forall P line ->
  Forall P (entry_version item.2).
Proof.
  unfold parse_line. intros H Hl.
  pose proof (split_from_Forall P [] line (Forall_nil_2 _) Hl) as Ht.
  fold (split line) in Ht.
  destruct (split line) as [|c0 [|c1 [|c2 r]]]; simpl in H; try done.
  - by destruct (int c0).
  - destruct (int c0); simpl in H; [|done]. by destruct (int c1).
  - destruct (int c0); simpl in H; [|done].
    destruct (int c1); simpl in H; [|done].
    injection H as <-. simpl.
    by apply Forall_cons in Ht as [_ [_ [Hc2 _]%Forall_cons]%Forall_cons].
Qed.

Lemma load_lines_Forall (P : char -> Prop) ls d d' :
  load_lines d ls = Ok d' -> Forall (Forall P) ls ->
  Forall (fun item : Z * entry => Forall P (entry_version item.2)) d ->
  Forall (fun item : Z * entry => Forall P (entry_version item.2)) d'.
Proof.
  revert d. induction ls as [|line ls IH]; intros d; simpl.
  - by intros [= ->].
  - destruct (parse_line line) as [[id e]|x] eqn:Hp; simpl; [|done].
    intros H [Hl Hls]%Forall_cons Hd. eapply IH; [exact H|done|].
    apply (dict_set_Forall
             (fun item : Z * entry => Forall P (entry_version item.2)));
      [|done].
    by apply (parse_line_Forall P line (id, e)).
Qed.

Lemma entry_line_Forall (P : char -> Prop) (item : Z * entry) :
  (forall c, (c < 128)%N -> P c) ->
  Forall P (entry_version item.2) -> Forall P (entry_line item).
Proof.
  intros Hascii Hv. unfold entry_line.
  apply Forall_app. split.
  { eapply Forall_impl; [apply str_of_int_chars|].
    intros c [->|[? ?]]; apply Hascii; lia. }
  apply Forall_app. split; [by repeat constructor; apply Hascii|].
  apply Forall_app. split.
  { destruct (install_alpha item.2); by repeat constructor; apply Hascii. }
  apply Forall_app. split; [by repeat constructor; apply Hascii|].
  apply Forall_app. split; [done|]. by repeat constructor; apply Hascii.
Qed.

(** What was read from a file, the encoding of the file holds again. *)
Lemma loaded_writable enc fs base_path raw m v :
  charwise enc -> enc raw = true ->
  fs !! (base_path ++ lit "/wau_manifest.txt") = Some raw ->
  load_manifest fs base_path = Ok m ->
  version m = Some v ->
  writable enc v (addons m).
Proof.
  intros (okc & Henc & Hascii) Hraw Hfile Hm Hv.
  destruct (load_manifest_present _ _ _ _ Hfile Hm) as (d & Hd & ->).
  cbn [version addons] in *. injection Hv as <-.
  rewrite Henc in Hraw. apply forallb_Forall in Hraw.
  assert (okc LF = true) as HLF by (by apply Hascii).
  pose proof (universal_newlines_Forall _ _ HLF Hraw) as Hun.
  destruct (readline_Forall _ _ Hun) as [Hfirst Hrest].
  unfold writable, commit_lines. constructor.
  - rewrite Henc. apply forallb_Forall, Forall_app. split.
    + by apply rstrip_Forall.
    + by repeat constructor.
  - apply Forall_fmap.
    eapply Forall_impl;
      [apply (load_lines_Forall (fun c => okc c = true) _ _ _ Hd);
       [by apply lines_from_Forall|constructor]|].
    intros item Hitem. cbn. rewrite Henc. apply forallb_Forall.
    by apply entry_line_Forall.
Qed.

Lemma utf8_charwise : charwise Sample.utf8.
Proof.
  eexists. split; [intros s; reflexivity|]. intros c Hc. cbn beta.
  apply orb_true_iff. left. apply N.ltb_lt. lia.
Qed.

(** X1.  Whatever [load_manifest] reads from an existing file, [commit]
    writes so that it reads back the same: for a manifest loaded from a
    file whose text the encoding holds (it was decoded from it), [commit]
    (to any file system) returns, and loading what it wrote gives that
    manifest again, however the file it came from was laid out (runs of
    blanks, carriage returns, columns after the third, repeated
    identifiers). *)
Theorem load_commit_load enc fs fs' base_path raw m :
  charwise enc -> enc raw = true ->
  fs !! (base_path ++ lit "/wau_manifest.txt") = Some raw ->
  load_manifest fs base_path = Ok m ->
  (commit enc m fs').2 = Ok tt /\
  load_manifest (commit enc m fs').1 base_path = Ok m.
Proof.
  intros Henc Hok Hraw Hm.
  destruct (loaded_reloads _ _ _ _ Hraw Hm) as (v & Hv & Hs & Hnd & Hd).
  rewrite (commit_set enc m fs' v Hv
             (loaded_writable _ _ _ _ _ _ Henc Hok Hraw Hm Hv)).
  split; [done|]. cbn [fst].
  apply load_serialized; try done. by eapply load_manifest_path.
Qed.

Lemma load_commit_load_witness :
  load_manifest Cases.untidy_disk Sample.root = Ok Cases.untidy /\
  load_manifest (commit Sample.utf8 Cases.untidy ∅).1 Sample.root
  = Ok Cases.untidy.
Proof.
  split; [reflexivity|].
  apply (load_commit_load Sample.utf8 Cases.untidy_disk ∅ Sample.root
           Cases.untidy_text Cases.untidy utf8_charwise); reflexivity.
Defined.

(** ** Files that do not load *)

Lemma readline_rest (s1 t : str) :
  (readline (s1 ++ LF :: t)).2 = t \/
  exists s2, (readline (s1 ++ LF :: t)).2 = s2 ++ LF :: t.
Proof.
  induction s1 as [|c s1 IH]; [by left|].
  cbn [app readline]. destruct (N.eqb_spec c LF) as [->|Hc].
  - right. by exists s1.
  - by destruct (readline (s1 ++ LF :: t)) as [l rest].
Qed.

Lemma lines_from_app (cur s1 t : str) :
  lines_from cur (s1 ++ LF :: t) = lines_from cur (s1 ++ [LF]) ++ lines_from [] t.
Proof.
  revert cur. induction s1 as [|c s1 IH]; intros cur; [done|].
  cbn [app lines_from]. destruct (c =? LF)%N; by rewrite IH.
Qed.

Lemma parse_line_blank line : blank line -> parse_line line = Raise IndexError.
Proof. intros Hb. unfold parse_line. by rewrite split_blank. Qed.

Lemma load_lines_blank d ls1 line ls2 :
  blank line ->
  load_lines d (ls1 ++ line :: ls2) = Raise IndexError \/
  load_lines d (ls1 ++ line :: ls2) = Raise ValueError.
Proof.
  intros Hb. rewrite load_lines_app.
  destruct (load_lines d ls1) as [d'|e] eqn:H1; simpl.
  - left. by rewrite parse_line_blank.
  - by apply load_lines_raises in H1 as [-> | ->]; [left|right].
Qed.

(** X2.  A manifest file (without carriage returns) that has a blank
    line after its first line does not load: [load_manifest] raises
    [IndexError] at the blank line, or the exception of an earlier line
    ([IndexError] or [ValueError]); no manifest is returned. *)
Theorem load_manifest_blank_line fs base_path (first_lines line rest : str) :
  let raw := first_lines ++ LF :: line ++ LF :: rest in
  fs !! (base_path ++ lit "/wau_manifest.txt") = Some raw ->
  CR ∉ raw ->
  blank line -> LF ∉ line ->
  load_manifest fs base_path = Raise IndexError \/
  load_manifest fs base_path = Raise ValueError.
Proof.
  intros raw Hraw Hcr Hb Hlf.
  assert (blank (line ++ [LF])) as Hb'.
  { apply Forall_app. split; [done|]. by repeat constructor. }
  assert (exists ls1 ls2,
            file_lines (readline raw).2 = ls1 ++ (line ++ [LF]) :: ls2)
    as (ls1 & ls2 & Hls).
  { unfold file_lines, raw.
    destruct (readline_rest first_lines (line ++ LF :: rest)) as [->|(s2 & ->)].
    - exists [], (lines_from [] rest). by rewrite lines_from_line.
    - exists (lines_from [] (s2 ++ [LF])), (lines_from [] rest).
      by rewrite lines_from_app, (lines_from_line [] line rest). }
  unfold load_manifest, WAU_Manifest_init. rewrite Hraw.
  rewrite universal_newlines_id by done.
  destruct (readline raw) as [first after]. cbn [snd] in Hls. rewrite Hls.
  by destruct (load_lines_blank [] ls1 (line ++ [LF]) ls2 Hb') as [-> | ->];
    [left|right].
Qed.

Lemma load_manifest_blank_line_witness :
  let fs : gmap (list N) (list N) := {[ Sample.path := lit "v1" ++ [LF; LF] ]} in
  load_manifest fs Sample.root = Raise IndexError \/
  load_manifest fs Sample.root = Raise ValueError.
Proof.
  intros fs.
  apply (load_manifest_blank_line fs Sample.root (lit "v1") [] []).
  - reflexivity.
  - intros Hin. by repeat (apply elem_of_cons in Hin as [Hin|Hin]; [done|]);
      apply elem_of_nil in Hin.
  - constructor.
  - apply not_elem_of_nil.
Defined.

(** ** An identifier on several lines *)

Lemma keys_dict_set_prefix k e d : keys d `prefix_of` keys (dict_set k e d).
Proof.
  rewrite keys_dict_set. destruct (decide _); [done|]. by apply prefix_app_r.
Qed.

Lemma load_lines_keys_prefix ls d d' :
  load_lines d ls = Ok d' -> keys d `prefix_of` keys d'.
Proof.
  revert d. induction ls as [|line ls IH]; intros d; simpl.
  - by intros [= ->].
  - destruct (parse_line line) as [[id e]|x]; simpl; [|done].
    intros H. etrans; [apply keys_dict_set_prefix|]. by apply IH.
Qed.

Lemma load_lines_other ls d d' id :
  Forall (fun l => forall e, parse_line l <> Ok (id, e)) ls ->
  load_lines d ls = Ok d' -> dict_get id d' = dict_get id d.
Proof.
  intros Hls. revert d. induction Hls as [|line ls Hl _ IH]; intros d; simpl.
  - by intros [= ->].
  - destruct (parse_line line) as [[k e]|x] eqn:Hp; simpl; [|done].
    intros H. rewrite (IH _ H). apply dict_get_set_ne.
    intros ->. by apply (Hl e).
Qed.

(** X3.  When the lines of the manifest file name an item more than once,
    the loop of [__init__] keeps what the last of its lines says, and every
    item stays where its first line put it: the keys read so far are a
    prefix of the keys at the end. *)
Theorem load_lines_last_wins d ls1 line ls2 id e d' :
  parse_line line = Ok (id, e) ->
  Forall (fun l => forall e', parse_line l <> Ok (id, e')) ls2 ->
  load_lines d (ls1 ++ line :: ls2) = Ok d' ->
  dict_get id d' = Ok e /\
  keys d `prefix_of` keys d'.
Proof.
  intros Hp Hls2 Hload. split; [|by eapply load_lines_keys_prefix].
  rewrite load_lines_app in Hload.
  destruct (load_lines d ls1) as [d1|x]; simpl in Hload; [|done].
  rewrite Hp in Hload. simpl in Hload.
  rewrite (load_lines_other _ _ _ _ Hls2 Hload). apply dict_get_set_eq.
Qed.

Lemma load_lines_last_wins_witness :
  dict_get 42 (addons Cases.untidy)
  = Ok {| install_alpha := false; entry_version := lit "2_0" |}.
Proof.
  apply (load_lines_last_wins []
           [lit "42  1 1_0 x" ++ [LF]; lit "7 0 a" ++ [LF]]
           (lit "42 0 2_0" ++ [LF]) [] 42
           {| install_alpha := false; entry_version := lit "2_0" |}
           (addons Cases.untidy)).
  - reflexivity.
  - constructor.
  - reflexivity.
Defined.

(** ** Updates of the version field *)

Lemma dict_set_set k e1 e2 d : dict_set k e2 (dict_set k e1 d) = dict_set k e2 d.
Proof.
  induction d as [|[k' e'] d IH]; simpl.
  - by rewrite Z.eqb_refl.
  - destruct (Z.eqb_spec k k') as [->|Hne]; simpl.
    + by rewrite Z.eqb_refl.
    + destruct (Z.eqb_spec k k'); [done|]. by rewrite IH.
Qed.

Lemma dict_set_comm k1 k2 e1 e2 d x1 x2 :
  k1 <> k2 -> dict_get k1 d = Ok x1 -> dict_get k2 d = Ok x2 ->
  dict_set k1 e1 (dict_set k2 e2 d) = dict_set k2 e2 (dict_set k1 e1 d).
Proof.
  intros Hne. revert x1 x2. induction d as [|[k' e'] d IH]; intros x1 x2; [done|].
  cbn [dict_get dict_set].
  destruct (Z.eqb_spec k1 k') as [->|H1], (Z.eqb_spec k2 k') as [->|H2];
    cbn [dict_set]; try done.
  - rewrite Z.eqb_refl. by destruct (Z.eqb_spec k2 k').
  - rewrite Z.eqb_refl. by destruct (Z.eqb_spec k1 k').
  - destruct (Z.eqb_spec k1 k'); [done|]. destruct (Z.eqb_spec k2 k'); [done|].
    intros G1 G2. by rewrite (IH _ _ G1 G2).
Qed.

(** X4.  Two calls of [update_version] that succeed on a manifest compose
    as follows: on the same item the later version replaces the earlier
    one, as if the earlier call had not been made; on two different items
    the calls commute, the manifest is the same in either order. *)
Theorem update_version_compose m id1 id2 v1 v2 m1 m2 :
  update_version m id1 v1 = Ok m1 ->
  update_version m id2 v2 = Ok m2 ->
  (id1 = id2 -> update_version m1 id2 v2 = Ok m2) /\
  (id1 <> id2 ->
   exists m12, update_version m1 id2 v2 = Ok m12 /\
               update_version m2 id1 v1 = Ok m12).
Proof.
  intros H1 H2.
  destruct (update_version_ok _ _ _ _ H1) as (e1 & G1 & ->).
  destruct (update_version_ok _ _ _ _ H2) as (e2 & G2 & ->).
  split.
  - intros <-. rewrite G1 in G2. injection G2 as <-.
    unfold update_version. cbn [addons manifest_path version].
    rewrite dict_get_set_eq. simpl. by rewrite dict_set_set.
  - intros Hne. unfold update_version. cbn [addons manifest_path version].
    rewrite !dict_get_set_ne, G1, G2 by done. simpl.
    eexists. split; [reflexivity|]. do 2 f_equal.
    symmetry. by eapply dict_set_comm.
Qed.

Lemma update_version_compose_witness :
  exists m12,
    (update_version Cases.untidy 42 (lit "3_0") ≫= fun m1 =>
       update_version m1 7 (lit "b")) = Ok m12 /\
    (update_version Cases.untidy 7 (lit "b") ≫= fun m2 =>
       update_version m2 42 (lit "3_0")) = Ok m12.
Proof.
  destruct (update_version_compose Cases.untidy 42 7 (lit "3_0") (lit "b")
              _ _ eq_refl eq_refl) as [_ H].
  apply H. discriminate.
Defined.

(** ** More on the release selector *)

Lemma applicable_alpha fl f : applicable false fl f = true -> applicable true fl f = true.
Proof.
  unfold applicable. intros [H _]%andb_true_iff. by rewrite H.
Qed.

Lemma foldl_latest_step_filter ia fl l acc :
  foldl (latest_step ia fl) acc l
  = foldl (latest_step ia fl) acc (filter (fun f => applicable ia fl f = true) l).
Proof.
  revert acc. induction l as [|f l IH]; intros acc; [done|].
  rewrite filter_cons. destruct (decide _) as [Hk|Hk]; cbn [foldl].
  - apply IH.
  - rewrite latest_step_skip by (by destruct (applicable ia fl f)). apply IH.
Qed.

(** X5.  The releases that the filter drops (another game flavor, or not
    release type 1 when alpha releases are off) have no part in the
    selection: [get_latest_file] returns the same on the full list and on
    the list of the surviving releases alone. *)
Theorem get_latest_file_filter info ia fl :
  get_latest_file info ia fl
  = get_latest_file
      {| name := name info;
         latestFiles := filter (fun f => applicable ia fl f = true)
                               (latestFiles info) |} ia fl.
Proof.
  unfold get_latest_file. cbn [latestFiles].
  by rewrite <- foldl_latest_step_filter.
Qed.

(** X6.  Allowing alpha releases never selects an older release: when
    [get_latest_file] finds a release with alpha releases off, it finds one
    with them on as well, and that one is at least as late. *)
Theorem get_latest_file_alpha info fl r :
  get_latest_file info false fl = Some r ->
  exists r', get_latest_file info true fl = Some r' /\
             fileDate r <= fileDate r'.
Proof.
  intros Hr. destruct (get_latest_file_some _ _ _ _ Hr) as (Hin & Hk & _).
  apply applicable_alpha in Hk.
  destruct (get_latest_file info true fl) as [r'|] eqn:Hr'.
  - exists r'. split; [done|].
    destruct (get_latest_file_some _ _ _ _ Hr') as (_ & _ & Hmax). by apply Hmax.
  - rewrite (get_latest_file_none _ _ _ _ Hr' Hin) in Hk. discriminate.
Qed.

Lemma get_latest_file_alpha_witness :
  exists r', get_latest_file Cases.offers true (lit "wow_retail") = Some r' /\
             fileDate Sample.newer <= fileDate r'.
Proof.
  apply (get_latest_file_alpha Cases.offers (lit "wow_retail") Sample.newer).
  reflexivity.
Defined.

(** X7.  When two lists hold the same releases up to their order and no
    two surviving releases carry the same date, [get_latest_file] selects
    the same release from both: the order in which the catalog lists the
    releases matters only among releases of equal date. *)
Theorem get_latest_file_permutation info info' ia fl :
  latestFiles info ≡ₚ latestFiles info' ->
  (forall f g, f ∈ latestFiles info -> g ∈ latestFiles info ->
     applicable ia fl f = true -> applicable ia fl g = true ->
     fileDate f = fileDate g -> f = g) ->
  get_latest_file info ia fl = get_latest_file info' ia fl.
Proof.
  intros Hperm Hdist.
  destruct (get_latest_file info ia fl) as [r|] eqn:Hr,
           (get_latest_file info' ia fl) as [r'|] eqn:Hr'; [| | |done].
  - destruct (get_latest_file_some _ _ _ _ Hr) as (Hin & Hk & Hmax).
    destruct (get_latest_file_some _ _ _ _ Hr') as (Hin' & Hk' & Hmax').
    rewrite <- Hperm in Hin'. f_equal. apply Hdist; try done.
    assert (fileDate r' <= fileDate r) by (by apply Hmax).
    assert (fileDate r <= fileDate r') by (apply Hmax'; [by rewrite <- Hperm|done]).
    lia.
  - destruct (get_latest_file_some _ _ _ _ Hr) as (Hin & Hk & _).
    rewrite Hperm in Hin.
    rewrite (get_latest_file_none _ _ _ _ Hr' Hin) in Hk. discriminate.
  - destruct (get_latest_file_some _ _ _ _ Hr') as (Hin' & Hk' & _).
    rewrite <- Hperm in Hin'.
    rewrite (get_latest_file_none _ _ _ _ Hr Hin') in Hk'. discriminate.
Qed.

Lemma get_latest_file_permutation_witness :
  get_latest_file Cases.offers false (lit "wow_retail")
  = get_latest_file
      {| name := lit "Addon";
         latestFiles := [Sample.newer; Cases.alpha; Cases.classic;
                         Sample.stable (lit "1 0") 3] |}
      false (lit "wow_retail").
Proof.
  apply get_latest_file_permutation.
  - simpl. apply (Permutation_rev [Sample.stable (lit "1 0") 3; Cases.classic;
                                   Cases.alpha; Sample.newer]).
  - intros f g Hf Hg Hkf Hkg Hd. simpl in Hf, Hg.
    repeat (apply elem_of_cons in Hf as [->|Hf]);
      try (by apply elem_of_nil in Hf);
      repeat (apply elem_of_cons in Hg as [->|Hg]);
      try (by apply elem_of_nil in Hg);
      first [reflexivity | discriminate Hkf | discriminate Hkg | discriminate Hd].
Defined.

(** ** The version token and the manifest file *)

Lemma replace_char_plain (s : str) :
  plain_name s ->
  replace_char SPACE UNDERSCORE s <> [] /\ no_space (replace_char SPACE UNDERSCORE s).
Proof.
  intros [Hne Hs]. split.
  - by destruct s.
  - unfold replace_char. apply Forall_fmap. eapply Forall_impl; [exact Hs|].
    simpl. intros c Hc. destruct (N.eqb_spec c SPACE) as [->|Hn]; [done|].
    destruct (is_space c) eqn:E; [|done]. by destruct Hn; apply Hc.
Qed.

(** X8.  A release whose display name is not empty and has no whitespace
    but space characters gives a version that fits the manifest file: the
    line [commit] writes for an item with that version is read back by
    [__init__] as that item, with its identifier, flag and version. *)
Theorem get_version_fits_manifest f id flag :
  plain_name (displayName f) ->
  exists v, get_version (Some f) = Ok v /\
    parse_line (entry_line (id, {| install_alpha := flag; entry_version := v |}))
    = Ok (id, {| install_alpha := flag; entry_version := v |}).
Proof.
  intros Hp. exists (replace_char SPACE UNDERSCORE (displayName f)).
  split; [done|]. destruct (replace_char_plain _ Hp) as [Hne Hns].
  by apply parse_entry_line.
Qed.

Lemma get_version_fits_manifest_witness :
  exists v, get_version (Some Cases.alpha) = Ok v /\
    parse_line (entry_line (42, {| install_alpha := true; entry_version := v |}))
    = Ok (42, {| install_alpha := true; entry_version := v |}).
Proof.
  apply (get_version_fits_manifest Cases.alpha 42 true).
  split; [discriminate|]. repeat constructor; by intros [=].
Defined.

(** ** More on the steps of a run *)

Lemma dict_get_present k d : k ∈ keys d -> exists e, dict_get k d = Ok e.
Proof.
  unfold keys. induction d as [|[k' e'] d IH]; [by intros ?%elem_of_nil|].
  rewrite fmap_cons, elem_of_cons. cbn [fst dict_get].
  destruct (Z.eqb_spec k k') as [->|Hne]; [by exists e'|].
  intros [?|Hin]; [done|]. by apply IH.
Qed.

Lemma flags_keys d d' : flags d = flags d' -> keys d = keys d'.
Proof.
  intros H. apply (f_equal (fmap fst)) in H. unfold flags in H.
  by rewrite <- !list_fmap_compose in H.
Qed.

Lemma flags_dict_get d d' id e :
  flags d = flags d' -> dict_get id d = Ok e ->
  exists e', dict_get id d' = Ok e' /\ install_alpha e' = install_alpha e.
Proof.
  revert d'. induction d as [|[k x] d IH]; intros [|[k' x'] d'] Hf; try done.
  injection Hf as -> Hx Hf. cbn [dict_get].
  destruct (Z.eqb_spec id k') as [->|Hne].
  - intros [= <-]. by exists x'.
  - by apply IH.
Qed.

Lemma run_inv_thread_key m0 s i id p :
  run_inv m0 s -> threads s !! i = Some (id, p) -> id ∈ keys (addons m0).
Proof.
  intros Hinv Hi. rewrite <- (inv_threads _ _ Hinv).
  apply list_elem_of_lookup. exists i. by rewrite list_lookup_fmap, Hi.
Qed.

Lemma main_spawned_inv w a fs s0 :
  main w a fs = Spawned s0 ->
  exists m v, load_manifest fs (addons_path a) = Ok m /\
    get_addon_database_version w (api_url a) = Ok v /\
    version (manifest (mem s0)) = Some v /\
    run_inv m s0.
Proof.
  intros Hmain. destruct (main_spawned _ _ _ _ Hmain) as (m & v & Hm & Hv & Hs0).
  exists m, v. split; [done|]. split; [done|]. split; [by subst s0|].
  by eapply main_run_inv.
Qed.

(** X9.  In a run of the script the step that records never fails: when
    a worker is about to record, its item is in the manifest and the stamp
    is assigned, so [update_version] and [commit] both return; the worker
    ends in [Done], its item carries the new version and its old flag, and
    the manifest file holds the serialization of the manifest so updated. *)

(** X9.  In a run of the script, when a worker is about to record, its
    item is in the manifest and the stamp is assigned, so [update_version]
    returns and the manifest in memory gets the new version, with the old
    flag of the item.  [commit] then returns when the encoding of the file
    holds every line, and the worker ends in [Done] with the manifest file
    holding the serialization of the manifest so updated; otherwise
    [commit] raises [UnicodeEncodeError], the worker dies with it, and the
    manifest file is left with the lines before the one refused. *)
Theorem recording_outcome w a fs s0 s i id lv :
  main w a fs = Spawned s0 ->
  steps w a s0 s ->
  threads s !! i = Some (id, Recording lv) ->
  exists e v m',
    dict_get id (addons (manifest (mem s))) = Ok e /\
    version m' = Some v /\
    update_version (manifest (mem s)) id lv = Ok m' /\
    dict_get id (addons m')
      = Ok {| install_alpha := install_alpha e; entry_version := lv |} /\
    (writable (encodes w) v (addons m') ->
     process_addon_step w a id (mem s) (Recording lv)
     = ({| manifest := m';
           files := <[manifest_path m' := serialize v (addons m')]> (files (mem s));
           requested := requested (mem s) |}, Done)) /\
    (~ writable (encodes w) v (addons m') ->
     process_addon_step w a id (mem s) (Recording lv)
     = ({| manifest := m';
           files := <[manifest_path m' :=
                        concat (written (encodes w) (commit_lines v (addons m')))]>
                      (files (mem s));
           requested := requested (mem s) |},
        CrashedRecording UnicodeEncodeError)).
Proof.
  intros Hmain Hsteps Hi.
  destruct (main_spawned_inv _ _ _ _ Hmain) as (m & v0 & _ & _ & _ & Hinv0).
  pose proof (steps_run_inv _ _ _ _ _ Hinv0 Hsteps) as Hinv.
  destruct (inv_version _ _ Hinv) as [v Hv].
  assert (id ∈ keys (addons (manifest (mem s)))) as Hin.
  { rewrite (flags_keys _ _ (inv_flags _ _ Hinv)).
    by eapply run_inv_thread_key. }
  destruct (dict_get_present _ _ Hin) as [e He].
  set (m' := {| addons := dict_set id {| install_alpha := install_alpha e;
                                         entry_version := lv |}
                            (addons (manifest (mem s)));
                manifest_path := manifest_path (manifest (mem s));
                version := version (manifest (mem s)) |}).
  assert (update_version (manifest (mem s)) id lv = Ok m') as Hu
    by (unfold update_version; by rewrite He).
  assert (version m' = Some v) as Hv' by done.
  exists e, v, m'. split; [done|]. split; [done|]. split; [done|].
  split; [apply dict_get_set_eq|]. split.
  - intros Hw. cbn [process_addon_step]. rewrite Hu.
    by rewrite (commit_set _ _ _ _ Hv' Hw).
  - intros Hw. cbn [process_addon_step]. rewrite Hu.
    destruct (commit_written (encodes w) m' (files (mem s)) v Hv')
      as (Hf & [(_ & Hok)|(Hr & _)]); [done|].
    destruct (commit (encodes w) m' (files (mem s))) as [fs' r].
    cbn [fst snd] in *. by subst.
Qed.

Lemma recording_outcome_witness :
  exists sh, process_addon_step Sample.reachable (Sample.args false) 42
               (mem Cases.recording) (Recording (lit "1_1")) = (sh, Done).
Proof.
  destruct (recording_outcome Sample.reachable (Sample.args false) Sample.disk
              Sample.started Cases.recording 0 42 (lit "1_1") eq_refl
              (run_thread_steps Sample.reachable (Sample.args false) 6
                 Sample.started 0 42 Start eq_refl) eq_refl)
    as (e & v & m' & _ & Hv & Hu & _ & H & _).
  injection Hu as <-. injection Hv as <-.
  eexists. apply H. repeat constructor.
Defined.




(** ** Every run ends *)

Lemma sum_list_with_insert {A} (f : A -> nat) (l : list A) i x y :
  l !! i = Some x ->
  (sum_list_with f (<[i := y]> l) + f x = sum_list_with f l + f y)%nat.
Proof.
  revert i. induction l as [|z l IH]; intros [|i] Hi; simplify_eq/=; [lia|].
  specialize (IH _ Hi). lia.
Qed.

Lemma remaining_running p : terminal p = false -> (0 < remaining p)%nat.
Proof. destruct p; simpl; (done || lia). Qed.

(** X11.  Every step of a run uses up work: the sum over the threads of
    the steps they are from their return (seven at the start) goes down
    with each step.  So no run of the script goes on for ever, and none has
    more steps than seven times the number of items. *)
Theorem step_uses_work w a s s' :
  step w a s s' -> (work s' < work s)%nat.
Proof.
  intros [s0 i id p sh' p' Hi Hrun Hstep]. unfold work. cbn [threads].
  pose proof (sum_list_with_insert (fun t : Z * pc => remaining t.2)
                (threads s0) i (id, p) (id, p') Hi) as Hsum.
  pose proof (process_addon_step_remaining w a id (mem s0) p) as Hle.
  rewrite Hstep in Hle. pose proof (remaining_running p Hrun). simpl in *. lia.
Qed.

Lemma step_uses_work_witness :
  (work {| mem := with_request (mem Sample.fetching) (lit "http://cdn/a.zip");
           threads := [(42%Z, Failed)] |} < work Sample.fetching)%nat.
Proof.
  apply (step_uses_work Sample.unreachable (Sample.args false)).
  exact (step_thread Sample.unreachable (Sample.args false) Sample.fetching
           0 42%Z _ _ _ eq_refl eq_refl eq_refl).
Defined.


(** ** The manifest file and the manifest in memory *)




















(** ** A line the encoding cannot hold *)

Lemma written_short enc (ws : list str) :
  Forall (fun w => w <> []) ws -> ~ Forall (fun l => enc l = true) ws ->
  (length (concat (written enc ws)) < length (concat ws))%nat.
Proof.
  induction ws as [|w ws IH]; intros Hne Hn.
  - destruct Hn. constructor.
  - apply Forall_cons in Hne as [Hw Hne]. cbn [written]. destruct (enc w) eqn:E.
    + cbn [concat]. rewrite !length_app. apply Nat.add_lt_mono_l.
      apply IH; [done|]. intros H. apply Hn. by constructor.
    + cbn [concat]. rewrite length_app. destruct w; [done|]. simpl. lia.
Qed.

Lemma commit_lines_nonempty v d : Forall (fun w : str => w <> []) (commit_lines v d).
Proof.
  unfold commit_lines. constructor; [by destruct v|].
  apply Forall_fmap, Forall_forall. intros item _. unfold entry_line. cbn.
  intros H. apply (f_equal length) in H. rewrite !length_app in H.
  simpl in H. lia.
Qed.

(** X16.  When the encoding of the manifest file cannot hold one of the
    lines of a manifest whose stamp is assigned, [commit] raises
    [UnicodeEncodeError] after it has emptied the file and written the
    lines before that one: the file is left with a prefix of the
    serialization that is shorter than it. *)
Theorem commit_breaks_off enc m fs v :
  version m = Some v ->
  ~ writable enc v (addons m) ->
  let t := concat (written enc (commit_lines v (addons m))) in
  commit enc m fs = (<[manifest_path m := t]> fs, Raise UnicodeEncodeError) /\
  t `prefix_of` serialize v (addons m) /\
  (length t < length (serialize v (addons m)))%nat.
Proof.
  intros Hv Hw t.
  destruct (commit_written enc m fs v Hv) as (Hf & [(_ & Hok)|(Hr & _)]); [done|].
  split; [|split].
  - destruct (commit enc m fs) as [fs' r]. cbn [fst snd] in *. by subst.
  - rewrite serialize_concat. change ([] ++ ?x) with x.
    apply concat_prefix, written_prefix.
  - rewrite serialize_concat. change ([] ++ ?x) with x.
    apply written_short; [apply commit_lines_nonempty|done].
Qed.

Lemma commit_breaks_off_witness :
  commit Sample.utf8 Cases.unencodable Sample.disk
  = (<[Sample.path := lit "v1" ++ [LF]]> Sample.disk, Raise UnicodeEncodeError).
Proof.
  refine (proj1 (commit_breaks_off Sample.utf8 Cases.unencodable Sample.disk
                   (lit "v1") eq_refl _)).
  intros H. apply Forall_cons in H as [_ [H _]%Forall_cons]. discriminate H.
Defined.

(** ** A version once recorded *)

Lemma step_entry_other w a m0 s i id p sh' p' j idj pj :
  run_inv m0 s ->
  threads s !! i = Some (id, p) ->
  process_addon_step w a id (mem s) p = (sh', p') ->
  threads s !! j = Some (idj, pj) -> j <> i ->
  dict_get idj (addons (manifest sh'))
  = dict_get idj (addons (manifest (mem s))).
Proof.
  intros Hinv Hi Hstep Hj Hne.
  destruct (process_addon_step_cases _ _ _ _ _ _ _ (inv_version _ _ Hinv) Hstep)
    as [(Hm & _)|(lv & m' & v & t & _ & Hu & _ & Hm & _)].
  - by rewrite Hm.
  - destruct (update_version_ok _ _ _ _ Hu) as (e & _ & Hm').
    rewrite Hm, Hm'. cbn [addons]. apply dict_get_set_ne.
    intros ->. apply Hne.
    eapply threads_distinct; [|exact Hj|exact Hi].
    rewrite (inv_threads _ _ Hinv). apply (inv_nodup _ _ Hinv).
Qed.

Lemma step_entry_stays w a m0 s s' i id p :
  run_inv m0 s -> step w a s s' ->
  threads s !! i = Some (id, p) -> terminal p = true ->
  dict_get id (addons (manifest (mem s')))
  = dict_get id (addons (manifest (mem s))).
Proof.
  intros Hinv Hstep Hi Ht.
  destruct Hstep as [s j idj pj sh' pj' Hj Hrun Hstep]. cbn [mem].
  eapply (step_entry_other w a m0 s j idj pj sh' pj' i id p); try done.
  intros ->. rewrite Hi in Hj. simplify_eq. congruence.
Qed.

Lemma steps_entry_stays w a m0 s s' i id p :
  run_inv m0 s -> steps w a s s' ->
  threads s !! i = Some (id, p) -> terminal p = true ->
  dict_get id (addons (manifest (mem s')))
  = dict_get id (addons (manifest (mem s))).
Proof.
  intros Hinv Hsteps Hi Ht. induction Hsteps as [|s1 s2 s3 H12 IH Hstep]; [done|].
  rewrite <- IH by done.
  eapply step_entry_stays; [|exact Hstep| |exact Ht].
  - by eapply steps_run_inv.
  - by eapply steps_terminal_stays.
Qed.

Lemma run_inv_recording m0 w a s i id lv :
  run_inv m0 s -> threads s !! i = Some (id, Recording lv) ->
  exists e m',
    dict_get id (addons (manifest (mem s))) = Ok e /\
    ((process_addon_step w a id (mem s) (Recording lv)).2 = Done \/
     (process_addon_step w a id (mem s) (Recording lv)).2
     = CrashedRecording UnicodeEncodeError) /\
    manifest (process_addon_step w a id (mem s) (Recording lv)).1 = m' /\
    dict_get id (addons m')
    = Ok {| install_alpha := install_alpha e; entry_version := lv |}.
Proof.
  intros Hinv Hi. destruct (inv_version _ _ Hinv) as [v Hv].
  assert (id ∈ keys (addons (manifest (mem s)))) as Hin.
  { rewrite (flags_keys _ _ (inv_flags _ _ Hinv)).
    by eapply run_inv_thread_key. }
  destruct (dict_get_present _ _ Hin) as [e He].
  set (m' := {| addons := dict_set id {| install_alpha := install_alpha e;
                                         entry_version := lv |}
                            (addons (manifest (mem s)));
                manifest_path := manifest_path (manifest (mem s));
                version := version (manifest (mem s)) |}).
  exists e, m'. split; [done|].
  cbn [process_addon_step]. unfold update_version. rewrite He.
  cbn [mbind result_bind]. fold m'.
  destruct (commit_written (encodes w) m' (files (mem s)) v Hv) as (_ & Hr).
  destruct (commit (encodes w) m' (files (mem s))) as [fs' r]. cbn [fst snd] in *.
  destruct Hr as [(-> & _)|(-> & _)]; cbn [fst snd manifest].
  - split; [by left|]. split; [done|]. apply dict_get_set_eq.
  - split; [by right|]. split; [done|]. apply dict_get_set_eq.
Qed.

(** X17.  A version that a worker has recorded in the manifest in memory
    stays: when a worker of a run is about to record the version [lv] and
    takes its step, it ends in [Done] or dies in [commit], and in every
    continuation of the run, whatever the other workers do, it stays as it
    ended and its item of the manifest in memory has the version [lv] and
    the flag the item was loaded with. *)
Theorem recorded_version_persists w a fs m s0 s i id lv s'' :
  load_manifest fs (addons_path a) = Ok m ->
  main w a fs = Spawned s0 ->
  steps w a s0 s ->
  threads s !! i = Some (id, Recording lv) ->
  steps w a (after_step w a s i id (Recording lv)) s'' ->
  step w a s (after_step w a s i id (Recording lv)) /\
  (threads s'' !! i = Some (id, Done) \/
   threads s'' !! i = Some (id, CrashedRecording UnicodeEncodeError)) /\
  threads s'' !! i = threads (after_step w a s i id (Recording lv)) !! i /\
  exists e0, dict_get id (addons m) = Ok e0 /\
    dict_get id (addons (manifest (mem s'')))
    = Ok {| install_alpha := install_alpha e0; entry_version := lv |}.
Proof.
  intros Hm Hmain Hsteps Hi Hlater.
  pose proof (main_run_inv _ _ _ _ _ Hm Hmain) as Hinv0.
  pose proof (steps_run_inv _ _ _ _ _ Hinv0 Hsteps) as Hinv.
  assert (step w a s (after_step w a s i id (Recording lv))) as Hstep.
  { unfold after_step. eapply step_thread; [exact Hi|done|].
    apply surjective_pairing. }
  destruct (run_inv_recording _ w a _ _ _ _ Hinv Hi)
    as (e & m' & He & Hp & Hm' & Hget).
  pose proof (step_run_inv _ _ _ _ _ Hinv Hstep) as Hinv1.
  assert (exists p', threads (after_step w a s i id (Recording lv)) !! i
                     = Some (id, p') /\ terminal p' = true /\
                     (p' = Done \/ p' = CrashedRecording UnicodeEncodeError))
    as (p' & Hi1 & Hterm & Hp').
  { eexists. split; [|split; [|exact Hp]].
    - unfold after_step. cbn [threads].
      apply list_lookup_insert_eq. by eapply lookup_lt_Some.
    - by destruct Hp as [-> | ->]. }
  pose proof (steps_terminal_stays _ _ _ _ _ _ _ Hlater Hi1 Hterm) as Hi2.
  split; [done|]. split; [rewrite Hi2; by destruct Hp' as [-> | ->]; [left|right]|].
  split; [by rewrite Hi1, Hi2|].
  destruct (flags_dict_get _ _ _ _ (inv_flags _ _ Hinv) He) as (e0 & He0 & Hia).
  exists e0. split; [done|].
  rewrite (steps_entry_stays _ _ _ _ _ _ _ _ Hinv1 Hlater Hi1 Hterm).
  unfold after_step. cbn [mem]. rewrite Hm', Hget. by rewrite Hia.
Qed.

Lemma recorded_version_persists_witness :
  dict_get 42
    (addons (manifest (mem (schedule Sample.reachable (Sample.args false)
                              (after_step Sample.reachable (Sample.args false)
                                 Cases.recording 0 42 (Recording (lit "1_1")))))))
  = Ok {| install_alpha := false; entry_version := lit "1_1" |}.
Proof.
  destruct (recorded_version_persists Sample.reachable (Sample.args false)
              Sample.disk Sample.ledger Sample.started Cases.recording 0 42
              (lit "1_1") _ eq_refl eq_refl
              (run_thread_steps Sample.reachable (Sample.args false) 6
                 Sample.started 0 42 Start eq_refl)
              eq_refl (schedule_steps _ _ _))
    as (_ & _ & _ & e0 & He0 & H).
  injection He0 as <-. exact H.
Defined.

(** ** A worker from its start to its return *)

Lemma run_thread_step w a n id sh p sh' p' :
  process_addon_step w a id sh p = (sh', p') ->
  run_thread w a (S n) id sh p = run_thread w a n id sh' p'.
Proof. intros H. cbn [run_thread]. by rewrite H. Qed.

(** X18.  A worker whose item is in the manifest, for which the catalog
    answers, the selector finds a release whose version differs from the
    installed one, the transfer succeeds, the archive extracts and the
    encoding of the manifest file holds the lines of the updated manifest,
    ends in [Done] after its seven steps.  It has asked the catalog for
    the item and then for the release; the archive was written to the
    AddOns directory, the directories of the modules of the release were
    removed, the archive was extracted and then removed; the item has the
    version of the release and its old flag, and the manifest file holds
    the serialization of the manifest so updated. *)
Theorem process_addon_updates w a id sh e v info f body fs3 :
  dict_get id (addons (manifest sh)) = Ok e ->
  version (manifest sh) = Some v ->
  get_addon_info w (api_url a) id = Ok info ->
  get_latest_file info (install_alpha e) (game_flavor a) = Some f ->
  replace_char SPACE UNDERSCORE (displayName f) <> entry_version e ->
  let zip := os_path_join w (addons_path a) (fileName f) in
  let m' := {| addons :=
                 dict_set id {| install_alpha := install_alpha e;
                                entry_version :=
                                  replace_char SPACE UNDERSCORE (displayName f) |}
                          (addons (manifest sh));
               manifest_path := manifest_path (manifest sh);
               version := Some v |} in
  transfer w (downloadUrl f) = Ok (body, Ok tt) ->
  extractall w zip (addons_path a)
    (foldl (fun fs' dir_name =>
              rmtree w (os_path_join w (addons_path a) dir_name) fs')
           (<[zip := body]> (files sh)) (modules f))
  = (fs3, Ok tt) ->
  writable (encodes w) v (addons m') ->
  run_thread w a 7 id sh Start
  = ({| manifest := m';
        files := <[manifest_path m' := serialize v (addons m')]> (delete zip fs3);
        requested := requested sh ++ [addon_url (api_url a) id] ++ [downloadUrl f] |},
     Done).
Proof.
  intros He Hv Hinfo Hf Hne zip m' Hfetch Hext Hw.
  set (lv := replace_char SPACE UNDERSCORE (displayName f)) in *.
  set (sh1 := with_request sh (addon_url (api_url a) id)).
  set (sh2 := with_request sh1 (downloadUrl f)).
  set (fs1 := <[zip := body]> (files sh)) in *.
  set (fs2 := foldl (fun fs' dir_name =>
                       rmtree w (os_path_join w (addons_path a) dir_name) fs')
                    fs1 (modules f)) in *.
  rewrite (run_thread_step w a 6 id sh Start sh
             (Selecting (entry_version e) (install_alpha e)))
    by (cbn [process_addon_step]; by rewrite He).
  rewrite (run_thread_step w a 5 id sh _ sh1 (Fetching (name info) (Some f) lv)).
  2:{ cbn [process_addon_step]. rewrite Hinfo, Hf. cbn [get_version]. simpl.
      fold lv. by rewrite bool_decide_eq_false_2. }
  rewrite (run_thread_step w a 4 id sh1 _ (with_files sh2 fs1)
             (Installing (name info) (Some f) lv zip)).
  2:{ cbn [process_addon_step download_release]. by rewrite Hfetch. }
  rewrite (run_thread_step w a 3 id (with_files sh2 fs1) _ (with_files sh2 fs2)
             (Extracting lv zip)) by done.
  rewrite (run_thread_step w a 2 id (with_files sh2 fs2) _ (with_files sh2 fs3)
             (Cleaning lv zip)).
  2:{ cbn [process_addon_step]. unfold extract_release.
      change (files (with_files sh2 fs2)) with fs2. by rewrite Hext. }
  rewrite (run_thread_step w a 1 id (with_files sh2 fs3) _
             (with_files sh2 (delete zip fs3)) (Recording lv)) by done.
  rewrite (run_thread_step w a 0 id (with_files sh2 (delete zip fs3)) (Recording lv)
             {| manifest := m';
                files := <[manifest_path m' := serialize v (addons m')]>
                           (delete zip fs3);
                requested := requested sh2 |} Done).
  2:{ cbn [process_addon_step]. unfold update_version.
      change (manifest (with_files sh2 (delete zip fs3))) with (manifest sh).
      rewrite He. cbn [mbind result_bind]. rewrite Hv. fold lv. fold m'.
      change (files (with_files sh2 (delete zip fs3))) with (delete zip fs3).
      by rewrite (commit_set (encodes w) m' (delete zip fs3) v eq_refl Hw). }
  cbn [run_thread]. subst sh2 sh1. cbn [with_request requested].
  by rewrite <- app_assoc.
Qed.

Lemma process_addon_updates_witness :
  (run_thread Sample.reachable (Sample.args false) 7 42 (mem Sample.started) Start).2
  = Done.
Proof.
  rewrite (process_addon_updates Sample.reachable (Sample.args false) 42
             (mem Sample.started)
             {| install_alpha := false; entry_version := lit "1_0" |}
             (lit "v2")
             {| name := lit "Addon"; latestFiles := [Sample.newer] |}
             Sample.newer (lit "PK")
             (<[lit "/wow/A/A.toc" := lit "toc"]>
                (<[lit "/wow/a.zip" := lit "PK"]> Sample.disk))
             eq_refl eq_refl eq_refl eq_refl
             ltac:(discriminate) eq_refl eq_refl ltac:(repeat constructor)).
  reflexivity.
Defined.

(** X19.  A worker whose item is in the manifest and for which the
    selector finds a release with the installed version ends in
    [UpToDate] after asking the catalog for the item once: it requests no
    release, and the manifest and the files are as they were. *)
Theorem process_addon_up_to_date w a id sh e info f :
  dict_get id (addons (manifest sh)) = Ok e ->
  get_addon_info w (api_url a) id = Ok info ->
  get_latest_file info (install_alpha e) (game_flavor a) = Some f ->
  replace_char SPACE UNDERSCORE (displayName f) = entry_version e ->
  run_thread w a 5 id sh Start
  = (with_request sh (addon_url (api_url a) id), UpToDate).
Proof.
  intros He Hinfo Hf Heq.
  rewrite (run_thread_step w a 4 id sh Start sh
             (Selecting (entry_version e) (install_alpha e)))
    by (simpl; by rewrite He).
  rewrite (run_thread_step w a 3 id sh _
             (with_request sh (addon_url (api_url a) id)) UpToDate).
  2:{ simpl. rewrite Hinfo, Hf. simpl. by rewrite bool_decide_eq_true_2. }
  reflexivity.
Qed.

Lemma process_addon_up_to_date_witness :
  run_thread Sample.reachable (Sample.args false) 5 7 (mem Cases.pair_started) Start
  = (with_request (mem Cases.pair_started) (lit "http://api/addon/7"), UpToDate).
Proof.
  exact (process_addon_up_to_date Sample.reachable (Sample.args false) 7
           (mem Cases.pair_started)
           {| install_alpha := true; entry_version := lit "1_1" |}
           {| name := lit "Addon"; latestFiles := [Sample.newer] |}
           Sample.newer eq_refl eq_refl eq_refl eq_refl).
Defined.

(** ** When the catalog refuses *)

(** X20.  When the catalog answers the query for an item with a status
    other than 200, the worker of that item ends with the uncaught
    exception of [throw_api_error], which carries the status and the body;
    the body is not decoded, no release is requested, and the manifest and
    the files are as they were. *)
Theorem process_addon_api_error w a id sh e r :
  dict_get id (addons (manifest sh)) = Ok e ->
  requests_get w (addon_url (api_url a) id) = Ok r ->
  status_code r <> 200 ->
  run_thread w a 5 id sh Start
  = (with_request sh (addon_url (api_url a) id),
     Crashed (ApiError (status_code r) (text r))).
Proof.
  intros He Hr Hs.
  rewrite (run_thread_step w a 4 id sh Start sh
             (Selecting (entry_version e) (install_alpha e)))
    by (simpl; by rewrite He).
  rewrite (run_thread_step w a 3 id sh _
             (with_request sh (addon_url (api_url a) id))
             (Crashed (ApiError (status_code r) (text r)))).
  2:{ simpl. unfold get_addon_info. rewrite Hr. simpl.
      by destruct (Z.eqb_spec (status_code r) 200). }
  reflexivity.
Qed.

Lemma process_addon_api_error_witness :
  run_thread Cases.down (Sample.args false) 5 42 (mem Sample.started) Start
  = (with_request (mem Sample.started) (lit "http://api/addon/42"),
     Crashed (ApiError 503 (lit "busy"))).
Proof.
  exact (process_addon_api_error Cases.down (Sample.args false) 42
           (mem Sample.started)
           {| install_alpha := false; entry_version := lit "1_0" |}
           {| status_code := 503; text := lit "busy" |}
           eq_refl eq_refl ltac:(discriminate)).
Defined.


